(** * humiolib.QueryJob: the polling state machine of a query job handle

    A shallow embedding of [src/humiolib/QueryJob.py].  The handle's
    attributes are a record that is threaded through every method; the
    outside world (wall clock, the server behind [WebCaller.call_rest])
    is an explicit [world] value holding the clock, the script of
    exchanges the server will answer with, and a log of what the handle
    did (transport calls and sleeps).

    Idealisations, all of them stated here once:
    - [time.time()] and the argument of [time.sleep] are rationals;
    - the JSON body of a response is typed as the wire contract gives it
      (the four keys the code reads at top level, and the four keys it
      reads in ["metaData"], are present and have their JSON types);
    - keyword arguments are mappings from strings to strings, as
      ["headers"] is;
    - [call_rest] ends by returning a body, by raising
      [HumioHTTPException], or by raising an exception of some other
      class, which no [except] clause of this module catches. *)

From Stdlib Require Import QArith Lqa.
From stdpp Require Import gmap strings list fin_maps.

Open Scope Z_scope.
Open Scope string_scope.

(** ** Data model *)

Module HumioExceptions.

(** The exceptions of [humiolib.HumioExceptions] this module raises or
    catches, the [StopIteration] of the generator protocol, and the
    exceptions of any other class (a connection or timeout error of the
    transport, say), known by the name of their class.  A
    [HumioHTTPException] carries a message and the HTTP status code. *)
Record http_error : Type := HTTPError {
  message : string;
  status_code : Z
}.

Inductive exn : Type :=
| HumioHTTPException (e : http_error)
| HumioQueryJobExpiredException (message : string)
| HumioQueryJobExhaustedException
| StopIteration
| ForeignException (class_name : string).

(** How a transport call can fail: with the typed HTTP error, or with an
    exception of another class. *)
Inductive transport_exn : Type :=
| TransportHTTP (e : http_error)
| TransportOther (class_name : string).

End HumioExceptions.
Export HumioExceptions.

(** [response["metaData"]]: the keys the engine reads. *)
Record metaData_t : Type := MetaData {
  isAggregate : bool;
  workDone : Z;
  totalWork : Z;
  pollAfter : Z
}.

(** The parsed JSON body of [GET .../queryjobs/{id}].  An event is a
    key-value mapping, opaque to the engine. *)
Record response : Type := Response {
  events : list (gmap string string);
  metaData : metaData_t;
  done : bool;
  cancelled : bool
}.

(** [class PollResult]. *)
Record PollResult : Type := mkPollResult {
  pr_events : list (gmap string string);
  metadata : metaData_t
}.

(** The three classes of the module; [self.poll] dispatches on it. *)
Inductive job_class : Type := BaseQueryJob | StaticQueryJob | LiveQueryJob.

(** The attributes [BaseQueryJob.__init__] sets ([webcaller] is the
    world below). *)
Record job : Type := Job {
  cls : job_class;
  query_id : string;
  is_done : bool;
  is_cancelled : bool;
  time_at_last_poll : Q;
  wait_time : Z;
  base_url : string;
  repository : string;
  user_token : string
}.

(** ** The world: clock, server script, log *)

(** What the outside does during one transport call: how much longer than
    asked a sleep before it lasts, how long the call takes, and what
    [call_rest] gives back. *)
Record exchange : Type := Exchange {
  oversleep : Q;
  latency : Q;
  result : response + transport_exn
}.

(** One logged [call_rest]. *)
Record call : Type := Call {
  c_verb : string;
  c_endpoint : string;
  c_headers : gmap string string;
  c_kwargs : gmap string (gmap string string);
  c_time : Q
}.

Record world : Type := World {
  now : Q;
  script : list exchange;
  calls : list call;
  sleeps : list Q
}.

(** Result of running a method: a value, a raised exception, or [Starved]
    when the script ended before the method did (the server has not
    answered yet). *)
Inductive outcome (A : Type) : Type :=
| Ret (a : A)
| Raise (e : exn)
| Starved.
Arguments Ret {A} a.
Arguments Raise {A} e.
Arguments Starved {A}.

(** Methods: state and world passing. *)
Definition M (A : Type) : Type := job -> world -> outcome A * job * world.

Definition ret {A} (a : A) : M A := fun s w => (Ret a, s, w).
Definition raise {A} (e : exn) : M A := fun s w => (Raise e, s, w).
Definition bind {A B} (m : M A) (k : A -> M B) : M B :=
  fun s w =>
    match m s w with
    | (Ret a, s', w') => k a s' w'
    | (Raise e, s', w') => (Raise e, s', w')
    | (Starved, s', w') => (Starved, s', w')
    end.

Notation "'do' x <- m ; k" := (bind m (fun x => k))
  (at level 10, x name, m at level 100, k at level 200).

(** [time.sleep(secs)]: returns after at least [secs]. *)
Definition time_sleep (secs : Q) (w : world) : world :=
  let extra := match script w with [] => 0%Q | x :: _ => oversleep x end in
  {| now := (now w + secs + extra)%Q;
     script := script w;
     calls := calls w;
     sleeps := sleeps w ++ [secs] |}.

(** [self.webcaller.call_rest]: verb, endpoint, headers and the remaining
    keyword arguments.  The call is logged with the time it is issued at;
    the clock then advances by the exchange's latency.  With the script
    used up the call is issued and never answered ([None]). *)
Definition call_rest (verb endpoint : string) (headers : gmap string string)
    (kwargs : gmap string (gmap string string)) (w : world)
    : option (response + transport_exn) * world :=
  let issued := (calls w ++ [Call verb endpoint headers kwargs (now w)])%list in
  match script w with
  | [] =>
      (None,
       {| now := now w; script := []; calls := issued; sleeps := sleeps w |})
  | x :: rest =>
      (Some (result x),
       {| now := (now w + latency x)%Q;
          script := rest;
          calls := issued;
          sleeps := sleeps w |})
  end.

(** ** BaseQueryJob *)

Definition BaseQueryJob__init__ (c : job_class)
    (query_id base_url repository user_token : string) : job :=
  {| cls := c;
     query_id := query_id;
     is_done := false;
     is_cancelled := false;
     time_at_last_poll := 0%Q;
     wait_time := 0;
     base_url := base_url;
     repository := repository;
     user_token := user_token |}.

Definition _default_user_headers (self : job) : gmap string string :=
  <["Content-Type" := "application/json"]>
    (<["Authorization" := "Bearer " +:+ user_token self]> ∅).

Definition _wait_till_next_poll (self : job) (w : world) : world :=
  let time_since_last_poll := (now w - time_at_last_poll self)%Q in
  if Qlt_le_dec time_since_last_poll (inject_Z (wait_time self))
  then time_sleep ((inject_Z (wait_time self) - time_since_last_poll) / 1000)%Q w
  else w.

Definition _fetch_next_segment (link : string) (headers : gmap string string)
    (kwargs : gmap string (gmap string string)) : M PollResult :=
  fun self w =>
    let w1 := _wait_till_next_poll self w in
    match call_rest "get" link headers kwargs w1 with
    | (None, w2) => (Starved, self, w2)
    | (Some (inr (TransportHTTP e)), w2) =>
        if (status_code e =? 404)%Z
        then (Raise (HumioQueryJobExpiredException (message e)), self, w2)
        else (Raise (HumioHTTPException e), self, w2)
    | (Some (inr (TransportOther class_name)), w2) =>
        (Raise (ForeignException class_name), self, w2)
    | (Some (inl resp), w2) =>
        let self' :=
          {| cls := cls self;
             query_id := query_id self;
             is_done := done resp;
             is_cancelled := cancelled resp;
             time_at_last_poll := now w2;
             wait_time := pollAfter (metaData resp);
             base_url := base_url self;
             repository := repository self;
             user_token := user_token self |} in
        (Ret (mkPollResult (events resp) (metaData resp)), self', w2)
    end.

Definition _aggregate_query_is_not_done (metadata : metaData_t) : bool :=
  isAggregate metadata && negb (workDone metadata =? totalWork metadata)%Z.

(** The [while] loop of [poll].  Every iteration consumes one exchange of
    the script or starves on the empty script, so [fuel] above the script's
    length is never used up (see [aggregate_loop_fuel]). *)
Fixpoint aggregate_loop (fuel : nat) (link : string)
    (headers : gmap string string) (kwargs : gmap string (gmap string string))
    (poll_result : PollResult) : M PollResult :=
  if _aggregate_query_is_not_done (metadata poll_result)
  then match fuel with
       | O => fun self w => (Starved, self, w)
       | S fuel' =>
           do poll_result' <- _fetch_next_segment link headers kwargs;
           aggregate_loop fuel' link headers kwargs poll_result'
       end
  else ret poll_result.

Definition poll_link (self : job) : string :=
  "dataspaces/" +:+ repository self +:+ "/queryjobs/" +:+ query_id self.

(** [headers.update(kwargs.pop("headers", {}))]: the popped mapping wins. *)
Definition poll_headers (self : job) (kwargs : gmap string (gmap string string))
    : gmap string string :=
  default ∅ (kwargs !! "headers") ∪ _default_user_headers self.

Definition poll (kwargs : gmap string (gmap string string)) : M PollResult :=
  fun self w =>
    let link := poll_link self in
    let headers := poll_headers self kwargs in
    let kwargs := delete "headers" kwargs in
    (do poll_result <- _fetch_next_segment link headers kwargs;
     if isAggregate (metadata poll_result)
     then fun self w =>
            aggregate_loop (S (length (script w))) link headers kwargs poll_result self w
     else fun self w =>
            if (workDone (metadata poll_result) =? 0)%Z && negb (is_done self)
            then _fetch_next_segment link headers kwargs self w
            else ret poll_result self w) self w.

(** [BaseQueryJob.poll_until_done] is a generator function; its body is
    the single statement [yield self.poll()].  A generator object is at
    one of three places: not started, suspended at the [yield], or
    finished. *)
Inductive generator : Type := GenCreated | GenSuspended | GenFinished.

(** ** StaticQueryJob *)

Definition StaticQueryJob_poll (kwargs : gmap string (gmap string string))
    : M PollResult :=
  fun self w =>
    if is_done self
    then raise HumioQueryJobExhaustedException self w
    else poll ∅ self w.

(** ** LiveQueryJob *)

Definition LiveQueryJob__del__ : M unit :=
  fun self w =>
    let headers := _default_user_headers self in
    let endpoint := poll_link self in
    match call_rest "delete" endpoint headers ∅ w with
    | (None, w') => (Starved, self, w')
    | (Some (inl _), w') => (Ret tt, self, w')
    | (Some (inr (TransportHTTP _)), w') => (Ret tt, self, w')
    | (Some (inr (TransportOther class_name)), w') =>
        (Raise (ForeignException class_name), self, w')
    end.

(** ** Method dispatch and the generator protocol *)

(** [self.poll] with keyword arguments [kwargs], on an object of class
    [cls self]. *)
Definition self_poll (kwargs : gmap string (gmap string string)) : M PollResult :=
  fun self w =>
    match cls self with
    | StaticQueryJob => StaticQueryJob_poll kwargs self w
    | BaseQueryJob | LiveQueryJob => poll kwargs self w
    end.

(** [next(g)] for [g = self.poll_until_done()]. *)
Definition generator_next (g : generator) (self : job) (w : world)
    : outcome PollResult * generator * job * world :=
  match g with
  | GenCreated =>
      match self_poll ∅ self w with
      | (Ret r, self', w') => (Ret r, GenSuspended, self', w')
      | (Raise e, self', w') => (Raise e, GenFinished, self', w')
      | (Starved, self', w') => (Starved, GenCreated, self', w')
      end
  | GenSuspended => (Raise StopIteration, GenFinished, self, w)
  | GenFinished => (Raise StopIteration, GenFinished, self, w)
  end.

(** Pulling [n] times from a generator; the outcomes in order.  A pull
    that raises is the last one the caller makes. *)
Fixpoint pull (n : nat) (g : generator) (self : job) (w : world)
    : list (outcome PollResult) * generator * job * world :=
  match n with
  | O => ([], g, self, w)
  | S n' =>
      match generator_next g self w with
      | (Ret r, g', self', w') =>
          let '(rs, g'', self'', w'') := pull n' g' self' w' in
          (Ret r :: rs, g'', self'', w'')
      | (o, g', self', w') => ([o], g', self', w')
      end
  end.

(** ** Constructors of the subclasses and a caller's loop *)

(** [StaticQueryJob.__init__] and [LiveQueryJob.__init__]: both only call
    [super().__init__] with their four arguments. *)
Definition StaticQueryJob__init__
    (query_id base_url repository user_token : string) : job :=
  BaseQueryJob__init__ StaticQueryJob query_id base_url repository user_token.

Definition LiveQueryJob__init__
    (query_id base_url repository user_token : string) : job :=
  BaseQueryJob__init__ LiveQueryJob query_id base_url repository user_token.

(** A caller that calls [self.poll] [n] times in a row with the same
    keyword arguments and goes on after an exception; the outcomes in
    order. *)
Fixpoint polls (n : nat) (kwargs : gmap string (gmap string string))
    (self : job) (w : world) : list (outcome PollResult) * job * world :=
  match n with
  | O => ([], self, w)
  | S n' =>
      let '(o, self1, w1) := self_poll kwargs self w in
      let '(os, self2, w2) := polls n' kwargs self1 w1 in
      (o :: os, self2, w2)
  end.

(** The values among a list of outcomes. *)
Definition yielded {A} (outs : list (outcome A)) : list A :=
  omap (λ o, match o with Ret a => Some a | _ => None end) outs.

(** The calls [cs] were answered by the exchanges [xs], all but the last
    call, and each call but the first was issued no earlier than the
    completion of the one before it plus the [pollAfter] milliseconds its
    response asked for. *)
Inductive spaced : list exchange → list call → Prop :=
| spaced_last c : spaced [] [c]
| spaced_next x r xs c c' cs :
    result x = inl r →
    (c_time c + latency x + inject_Z (pollAfter (metaData r)) / 1000
       <= c_time c')%Q →
    spaced xs (c' :: cs) →
    spaced (x :: xs) (c :: c' :: cs).

(** The handle [self] with other values in [is_done] and [is_cancelled]. *)
Definition with_flags (self : job) (d c : bool) : job :=
  {| cls := cls self;
     query_id := query_id self;
     is_done := d;
     is_cancelled := c;
     time_at_last_poll := time_at_last_poll self;
     wait_time := wait_time self;
     base_url := base_url self;
     repository := repository self;
     user_token := user_token self |}.

(** The configuration of a handle: what [__init__] receives. *)
Definition config (self : job) : job_class * string * string * string * string :=
  (cls self, query_id self, base_url self, repository self, user_token self).

(** * Properties *)

Open Scope nat_scope.

(** ** Vocabulary for the statements *)

(** The exception [_fetch_next_segment] raises for a transport error. *)
Definition raised_for (f : transport_exn) : exn :=
  match f with
  | TransportHTTP e =>
      if (status_code e =? 404)%Z
      then HumioQueryJobExpiredException (message e)
      else HumioHTTPException e
  | TransportOther class_name => ForeignException class_name
  end.

(** The handle after the four assignments that follow a successful call
    returning [resp] at time [t]. *)
Definition committed (self : job) (resp : response) (t : Q) : job :=
  {| cls := cls self;
     query_id := query_id self;
     is_done := done resp;
     is_cancelled := cancelled resp;
     time_at_last_poll := t;
     wait_time := pollAfter (metaData resp);
     base_url := base_url self;
     repository := repository self;
     user_token := user_token self |}.

Definition segment (resp : response) : PollResult :=
  mkPollResult (events resp) (metaData resp).

(** The time at which a fetch started at [w] issues its transport call. *)
Definition issue_time (self : job) (w : world) : Q :=
  now (_wait_till_next_poll self w).

(** The world after a fetch started at [w] got the answer of [x]. *)
Definition answered (link : string) (h : gmap string string)
    (kw : gmap string (gmap string string)) (self : job) (w : world)
    (x : exchange) (rest : list exchange) : world :=
  {| now := (issue_time self w + latency x)%Q;
     script := rest;
     calls := (calls w ++ [Call "get" link h kw (issue_time self w)])%list;
     sleeps := sleeps (_wait_till_next_poll self w) |}.

(** [xs] are exchanges that succeed with the bodies [rs]. *)
Definition answers (xs : list exchange) (rs : list response) : Prop :=
  result <$> xs = inl <$> rs.

Definition not_done_yet (r : response) : Prop :=
  _aggregate_query_is_not_done (metaData r) = true.

(** A [GET] of [link] carrying [h] and the keyword arguments [kw]. *)
Definition is_get (link : string) (h : gmap string string)
    (kw : gmap string (gmap string string)) (c : call) : Prop :=
  c_verb c = "get" ∧ c_endpoint c = link ∧ c_headers c = h ∧ c_kwargs c = kw.

(** The handle shows the job status and the wait the body [r] carries. *)
Definition shows (self : job) (r : response) : Prop :=
  is_done self = done r ∧ is_cancelled self = cancelled r ∧
  wait_time self = pollAfter (metaData r).

(** A run of fetches from [w] to [w'] that ends with [o]: the exchanges
    [pre] were answered and passed over, the next one decided [o], and
    one [GET] was issued for each of them.  A run that returns leaves the
    handle [self'] showing the status of the body it returns. *)
Definition consumed (link : string) (h : gmap string string)
    (kw : gmap string (gmap string string)) (pre : list exchange)
    (w : world) (o : outcome PollResult) (self' : job) (w' : world) : Prop :=
  (∃ new, calls w' = (calls w ++ new)%list ∧ Forall (is_get link h kw) new ∧
          length new = S (length pre)) ∧
  match o with
  | Ret pr => ∃ x r, script w = (pre ++ x :: script w')%list ∧
                     result x = inl r ∧ pr = segment r ∧ shows self' r
  | Raise e => ∃ x err, script w = (pre ++ x :: script w')%list ∧
                        result x = inr err ∧ e = raised_for err
  | Starved => script w = pre ∧ script w' = []
  end.

(** ** The pacing gate and one fetch *)

Lemma wait_script self w : script (_wait_till_next_poll self w) = script w.
Proof. unfold _wait_till_next_poll. by destruct (Qlt_le_dec _ _). Qed.

Lemma wait_calls self w : calls (_wait_till_next_poll self w) = calls w.
Proof. unfold _wait_till_next_poll. by destruct (Qlt_le_dec _ _). Qed.

Lemma fetch_starved link h kw self w :
  script w = [] →
  ∃ w', _fetch_next_segment link h kw self w = (Starved, self, w') ∧
        script w' = [] ∧
        calls w' = (calls w ++ [Call "get" link h kw (issue_time self w)])%list.
Proof.
  intros Hs. unfold _fetch_next_segment, call_rest.
  rewrite wait_script, Hs, wait_calls. eexists. split; [reflexivity|]. done.
Qed.

Lemma fetch_ok link h kw self w x rest r :
  script w = x :: rest → result x = inl r →
  _fetch_next_segment link h kw self w =
    (Ret (segment r),
     committed self r (issue_time self w + latency x)%Q,
     answered link h kw self w x rest).
Proof.
  intros Hs Hr. unfold _fetch_next_segment, call_rest.
  rewrite wait_script, Hs, wait_calls, Hr. reflexivity.
Qed.

Lemma fetch_err link h kw self w x rest e :
  script w = x :: rest → result x = inr e →
  _fetch_next_segment link h kw self w =
    (Raise (raised_for e), self, answered link h kw self w x rest).
Proof.
  intros Hs Hr. unfold _fetch_next_segment, call_rest, raised_for.
  rewrite wait_script, Hs, wait_calls, Hr.
  destruct e as [e|class_name]; [|done]. by destruct (status_code e =? 404)%Z.
Qed.

(** The three ways a fetch can end, by what the script holds. *)
Lemma fetch_cases link h kw self w :
  (script w = [] ∧ ∃ w', _fetch_next_segment link h kw self w = (Starved, self, w')
     ∧ script w' = []
     ∧ calls w' = (calls w ++ [Call "get" link h kw (issue_time self w)])%list)
  ∨ (∃ x rest r, script w = x :: rest ∧ result x = inl r ∧
       _fetch_next_segment link h kw self w =
         (Ret (segment r), committed self r (issue_time self w + latency x)%Q,
          answered link h kw self w x rest))
  ∨ (∃ x rest e, script w = x :: rest ∧ result x = inr e ∧
       _fetch_next_segment link h kw self w =
         (Raise (raised_for e), self, answered link h kw self w x rest)).
Proof.
  destruct (script w) as [|x rest] eqn:Hs.
  - left. split; [done|]. by apply fetch_starved.
  - right. destruct (result x) as [r|e] eqn:Hr.
    + left. exists x, rest, r. eauto using fetch_ok.
    + right. exists x, rest, e. eauto using fetch_err.
Qed.

Lemma answered_script link h kw self w x rest :
  script (answered link h kw self w x rest) = rest.
Proof. reflexivity. Qed.

Lemma answered_calls link h kw self w x rest :
  calls (answered link h kw self w x rest) =
  (calls w ++ [Call "get" link h kw (issue_time self w)])%list.
Proof. reflexivity. Qed.

(** One fetch consumes exactly the head of the script. *)
Lemma fetch_consumed link h kw self w o self' w' :
  _fetch_next_segment link h kw self w = (o, self', w') →
  consumed link h kw [] w o self' w'.
Proof.
  intros Hf.
  destruct (fetch_cases link h kw self w)
    as [(Hs & w1 & Hw & Hs1 & Hc) | [(x & rest & r & Hs & Hr & Hw)
                                    | (x & rest & e & Hs & Hr & Hw)]];
    rewrite Hw in Hf; injection Hf as <- <- <-.
  - split; [|done]. eexists; split; [exact Hc|]. split; [|done].
    repeat constructor.
  - split; [|by exists x, r]. eexists; split; [reflexivity|].
    split; [|done]. repeat constructor.
  - split; [|by exists x, e]. eexists; split; [reflexivity|].
    split; [|done]. repeat constructor.
Qed.

(** A successful fetch followed by a run is a run. *)
Lemma consumed_step link h kw self w x rest pre o self' w' :
  script w = x :: rest →
  consumed link h kw pre (answered link h kw self w x rest) o self' w' →
  consumed link h kw (x :: pre) w o self' w'.
Proof.
  intros Hs [(new & Hc & Hall & Hlen) Ho]. split.
  - exists (Call "get" link h kw (issue_time self w) :: new).
    rewrite Hc, answered_calls, <- app_assoc. split; [done|].
    split; [|simpl; lia]. constructor; [done|exact Hall].
  - destruct o as [pr|e|]; rewrite answered_script in Ho.
    + destruct Ho as (y & r & Hr & ? & ? & ?). exists y, r. by rewrite Hs, Hr.
    + destruct Ho as (y & r & Hr & ? & ?). exists y, r. by rewrite Hs, Hr.
    + destruct Ho as [Hr ?]. by rewrite Hs, Hr.
Qed.

(** ** The aggregate loop *)

(** The [while] loop as a relation, without fuel. *)
Inductive loop_run (link : string) (h : gmap string string)
    (kw : gmap string (gmap string string))
    : PollResult → job → world → outcome PollResult → job → world → Prop :=
| loop_exit pr self w :
    _aggregate_query_is_not_done (metadata pr) = false →
    loop_run link h kw pr self w (Ret pr) self w
| loop_starved pr self w self' w' :
    _aggregate_query_is_not_done (metadata pr) = true →
    _fetch_next_segment link h kw self w = (Starved, self', w') →
    loop_run link h kw pr self w Starved self' w'
| loop_raise pr self w e self' w' :
    _aggregate_query_is_not_done (metadata pr) = true →
    _fetch_next_segment link h kw self w = (Raise e, self', w') →
    loop_run link h kw pr self w (Raise e) self' w'
| loop_again pr self w pr1 self1 w1 o self' w' :
    _aggregate_query_is_not_done (metadata pr) = true →
    _fetch_next_segment link h kw self w = (Ret pr1, self1, w1) →
    loop_run link h kw pr1 self1 w1 o self' w' →
    loop_run link h kw pr self w o self' w'.

(** With more fuel than the script is long, the fuelled loop is the loop. *)
Lemma aggregate_loop_fuel link h kw fuel :
  ∀ pr self w,
    length (script w) < fuel →
    ∀ o self' w',
      aggregate_loop fuel link h kw pr self w = (o, self', w') →
      loop_run link h kw pr self w o self' w'.
Proof.
  induction fuel as [|fuel IH]; intros pr self w Hlen o self' w' Hrun; [lia|].
  simpl in Hrun.
  destruct (_aggregate_query_is_not_done (metadata pr)) eqn:Hnd.
  - unfold bind in Hrun.
    destruct (fetch_cases link h kw self w)
      as [(Hs & w1 & Hw & _) | [(x & rest & r & Hs & Hr & Hw)
                              | (x & rest & e & Hs & Hr & Hw)]];
      rewrite Hw in Hrun.
    + injection Hrun as <- <- <-. by apply loop_starved.
    + eapply loop_again; [done|exact Hw|].
      apply IH; [|exact Hrun]. rewrite answered_script.
      rewrite Hs in Hlen. simpl in Hlen. lia.
    + injection Hrun as <- <- <-. by apply loop_raise.
  - injection Hrun as <- <- <-. by apply loop_exit.
Qed.

(** What a run of the loop consumes, and where it stops. *)
Lemma loop_run_consumed link h kw pr self w o self' w' :
  loop_run link h kw pr self w o self' w' →
  (_aggregate_query_is_not_done (metadata pr) = false ∧
   o = Ret pr ∧ self' = self ∧ w' = w)
  ∨ (_aggregate_query_is_not_done (metadata pr) = true ∧
     ∃ pre rs, answers pre rs ∧ Forall not_done_yet rs ∧
               consumed link h kw pre w o self' w' ∧
               ∀ pr', o = Ret pr' →
                      _aggregate_query_is_not_done (metadata pr') = false).
Proof.
  induction 1 as [pr self w Hnd | pr self w self' w' Hnd Hf
                 | pr self w e self' w' Hnd Hf
                 | pr self w pr1 self1 w1 o self' w' Hnd Hf Hrun IH].
  - by left.
  - right. split; [done|]. exists [], []. split_and!; try done.
    by apply fetch_consumed in Hf.
  - right. split; [done|]. exists [], []. split_and!; try done.
    by apply fetch_consumed in Hf.
  - right. split; [done|].
    destruct (fetch_cases link h kw self w)
      as [(Hs & w2 & Hw & _) | [(x & rest & r & Hs & Hr & Hw)
                              | (x & rest & e & Hs & Hr & Hw)]];
      rewrite Hw in Hf; try discriminate.
    injection Hf as <- <- <-.
    destruct IH as [(Hnd1 & -> & -> & ->) | (Hnd1 & pre & rs & Hans & Hall & Hc & Hret)].
    + exists [], []. split_and!; try done.
      * split.
        -- eexists. rewrite answered_calls. split; [reflexivity|].
           split; [|done]. repeat constructor.
        -- exists x, r. by rewrite Hs.
      * intros pr' [= <-]. exact Hnd1.
    + exists (x :: pre), (r :: rs). split_and!.
      * unfold answers in *. by rewrite !fmap_cons, Hr, Hans.
      * constructor; [exact Hnd1|exact Hall].
      * by eapply consumed_step in Hc.
      * exact Hret.
Qed.

(** The loop does come back: when the script holds a finished segment
    after unfinished ones, the loop returns it. *)
Lemma aggregate_loop_finishes link h kw :
  ∀ pre rs x r rest fuel pr0 self w,
    script w = (pre ++ x :: rest)%list →
    answers pre rs →
    Forall not_done_yet rs →
    result x = inl r →
    _aggregate_query_is_not_done (metaData r) = false →
    _aggregate_query_is_not_done (metadata pr0) = true →
    length pre < fuel →
    ∃ self' w',
      aggregate_loop fuel link h kw pr0 self w = (Ret (segment r), self', w') ∧
      script w' = rest ∧
      length (calls w') = length (calls w) + S (length pre) ∧
      is_done self' = done r.
Proof.
  induction pre as [|y pre IH];
    intros rs x r rest fuel pr0 self w Hs Hans Hall Hr Hfin Hnd Hfuel;
    (destruct fuel as [|fuel]; [simpl in Hfuel; lia|]).
  - simpl in Hs. simpl. rewrite Hnd. unfold bind.
    rewrite (fetch_ok _ _ _ _ _ _ _ _ Hs Hr).
    destruct fuel; simpl; unfold segment at 1; simpl; rewrite Hfin;
      (eexists _, _; split; [reflexivity|]);
      rewrite answered_script, answered_calls, length_app; simpl;
      (split_and!; [done|lia|done]).
  - destruct rs as [|r1 rs]; [discriminate|].
    unfold answers in Hans. rewrite !fmap_cons in Hans.
    injection Hans as Hr1 Hans. apply Forall_cons in Hall as [Hnd1 Hall].
    simpl in Hs. simpl. rewrite Hnd. unfold bind.
    rewrite (fetch_ok _ _ _ _ _ _ _ _ Hs Hr1).
    edestruct (IH rs x r rest fuel (segment r1)) as (self' & w' & Hrun & Hs' & Hc & Hd);
      [apply answered_script|exact Hans|exact Hall|exact Hr|exact Hfin
      |exact Hnd1|simpl in Hfuel; lia|].
    exists self', w'. rewrite Hrun. split_and!; try done.
    rewrite Hc, answered_calls, length_app. simpl. lia.
Qed.

(** ** [poll] by its first fetch *)

Section PollUnfold.

Variable kwargs : gmap string (gmap string string).
Variable self : job.
Variable w : world.

Let link := poll_link self.
Let h := poll_headers self kwargs.
Let kw := delete "headers" kwargs.

Lemma poll_first_starved :
  script w = [] →
  poll kwargs self w = _fetch_next_segment link h kw self w.
Proof.
  intros Hs. unfold poll, bind.
  destruct (fetch_starved link h kw self w Hs) as (w' & Hw & _).
  fold link h kw. by rewrite Hw.
Qed.

Lemma poll_first_raises x rest e :
  script w = x :: rest → result x = inr e →
  poll kwargs self w =
    (Raise (raised_for e), self, answered link h kw self w x rest).
Proof.
  intros Hs Hr. unfold poll, bind. fold link h kw.
  by rewrite (fetch_err _ _ _ _ _ _ _ _ Hs Hr).
Qed.

Lemma poll_first_answered x rest r :
  script w = x :: rest → result x = inl r →
  let self1 := committed self r (issue_time self w + latency x)%Q in
  let w1 := answered link h kw self w x rest in
  poll kwargs self w =
    if isAggregate (metaData r)
    then aggregate_loop (S (length rest)) link h kw (segment r) self1 w1
    else if (workDone (metaData r) =? 0)%Z && negb (done r)
         then _fetch_next_segment link h kw self1 w1
         else (Ret (segment r), self1, w1).
Proof.
  intros Hs Hr. unfold poll, bind. fold link h kw.
  rewrite (fetch_ok _ _ _ _ _ _ _ _ Hs Hr).
  change (metadata (segment r)) with (metaData r).
  destruct (isAggregate (metaData r)); [by rewrite answered_script|].
  change (is_done (committed _ _ _)) with (done r).
  by destruct ((workDone (metaData r) =? 0)%Z && negb (done r)).
Qed.

(** Whatever [poll] does, it is a run of [GET]s of the job's link with
    the merged headers, over a prefix of the script. *)
Lemma poll_consumed o self' w' :
  poll kwargs self w = (o, self', w') →
  ∃ pre rs, answers pre rs ∧ consumed link h kw pre w o self' w'.
Proof.
  intros Hp.
  destruct (script w) as [|x rest] eqn:Hs.
  { rewrite (poll_first_starved Hs) in Hp. exists [], []. split; [done|].
    by apply fetch_consumed in Hp. }
  destruct (result x) as [r|e] eqn:Hr.
  2:{ rewrite (poll_first_raises _ _ _ Hs Hr) in Hp. injection Hp as <- <- <-.
      exists [], []. split; [done|]. split.
      - eexists. rewrite answered_calls. split; [reflexivity|].
        split; [|done]. repeat constructor.
      - exists x, e. by rewrite Hs. }
  rewrite (poll_first_answered _ _ _ Hs Hr) in Hp.
  assert (consumed link h kw [] w (Ret (segment r))
            (committed self r (issue_time self w + latency x)%Q)
            (answered link h kw self w x rest)) as Hone.
  { split.
    - eexists. rewrite answered_calls. split; [reflexivity|].
      split; [|done]. repeat constructor.
    - exists x, r. by rewrite Hs. }
  destruct (isAggregate (metaData r)).
  - apply aggregate_loop_fuel in Hp; [|rewrite answered_script; lia].
    apply loop_run_consumed in Hp
      as [(_ & -> & -> & ->) | (_ & pre & rs & Hans & _ & Hc & _)].
    + by exists [], [].
    + exists (x :: pre), (r :: rs). split.
      * unfold answers in *. by rewrite !fmap_cons, Hr, Hans.
      * by eapply consumed_step in Hc.
  - destruct ((workDone (metaData r) =? 0)%Z && negb (done r)).
    + apply fetch_consumed in Hp. exists [x], [r]. split.
      * unfold answers. by rewrite !fmap_cons, Hr.
      * by eapply consumed_step in Hp.
    + injection Hp as <- <- <-. by exists [], [].
Qed.

End PollUnfold.

(** ** Scenarios used as concrete inputs *)

Module Scenario.

Definition static_job : job :=
  BaseQueryJob__init__ StaticQueryJob "q1" "https://cloud.humio.com/" "sandbox" "tok".
Definition live_job : job :=
  BaseQueryJob__init__ LiveQueryJob "q2" "https://cloud.humio.com/" "sandbox" "tok".

(** The world at [t] seconds after the epoch, with nothing logged. *)
Definition at_time (t : Q) (xs : list exchange) : world :=
  {| now := t; script := xs; calls := []; sleeps := [] |}.

(** An exchange answered after a tenth of a second. *)
Definition ok (r : response) : exchange :=
  {| oversleep := 0; latency := 1 # 10; result := inl r |}.
Definition failing (code : Z) (msg : string) : exchange :=
  {| oversleep := 0; latency := 1 # 10;
     result := inr (TransportHTTP (HTTPError msg code)) |}.

Definition partial_aggregate : response :=
  Response [] (MetaData true 3 10 500) false false.
Definition complete_aggregate : response :=
  Response [{["_count" := "42"]}] (MetaData true 10 10 500) true false.
Definition empty_streaming : response :=
  Response [] (MetaData false 0 0 200) false false.
Definition empty_streaming_done : response :=
  Response [] (MetaData false 0 0 200) true false.
Definition streaming : response :=
  Response [{["msg" := "hello"]}] (MetaData false 5 0 200) false false.
Definition streaming_done : response :=
  Response [{["msg" := "bye"]}] (MetaData false 7 7 200) true false.

End Scenario.

(** ** Aggregate jobs *)

(** C1.  When the first segment a [poll] fetches is an aggregate one
    ([isAggregate] true), [poll] never returns a segment with [isAggregate]
    true and [workDone != totalWork]: what it returns is the first segment
    of the script for which [_aggregate_query_is_not_done] fails, every
    segment before it was fetched and passed over, and one transport call
    was made per segment.  And the loop does return: as soon as the script
    holds such a segment after unfinished ones, [poll] returns it. *)
Theorem poll_returns_complete_aggregate kwargs self w x0 rest0 r0 :
  script w = x0 :: rest0 →
  result x0 = inl r0 →
  isAggregate (metaData r0) = true →
  (∀ pr self' w',
      poll kwargs self w = (Ret pr, self', w') →
      _aggregate_query_is_not_done (metadata pr) = false ∧
      ∃ pre rs x r,
        script w = (pre ++ x :: script w')%list ∧
        answers pre rs ∧ Forall not_done_yet rs ∧
        result x = inl r ∧ pr = segment r ∧
        length (calls w') = length (calls w) + S (length pre))
  ∧ (∀ pre rs x r rest,
        script w = (pre ++ x :: rest)%list →
        answers pre rs → Forall not_done_yet rs →
        result x = inl r →
        _aggregate_query_is_not_done (metaData r) = false →
        ∃ self' w',
          poll kwargs self w = (Ret (segment r), self', w') ∧
          script w' = rest ∧
          length (calls w') = length (calls w) + S (length pre)).
Proof.
  intros Hs Hr Hagg.
  pose proof (poll_first_answered kwargs self w x0 rest0 r0 Hs Hr) as Hp.
  cbv zeta in Hp. rewrite Hagg in Hp. split.
  - intros pr self' w' Hret. rewrite Hp in Hret.
    apply aggregate_loop_fuel in Hret; [|rewrite answered_script; lia].
    apply loop_run_consumed in Hret
      as [(Hnd & [= ->] & -> & ->)
         | (Hnd & pre & rs & Hans & Hall & [(new & Hc & _ & Hlen) Ho] & Hfin)].
    + split; [exact Hnd|]. exists [], [], x0, r0.
      rewrite answered_script, answered_calls, length_app. simpl.
      split_and!; done.
    + split; [by apply Hfin|]. destruct Ho as (x & r & Hsc & Hrx & -> & _).
      rewrite answered_script in Hsc. exists (x0 :: pre), (r0 :: rs), x, r.
      split_and!; try done.
      * by rewrite Hs, Hsc.
      * unfold answers in *. by rewrite !fmap_cons, Hr, Hans.
      * constructor; [exact Hnd|exact Hall].
      * rewrite Hc, answered_calls, !length_app, Hlen. simpl. lia.
  - intros pre rs x r rest Hsc Hans Hall Hrx Hfin. rewrite Hp.
    destruct pre as [|y pre].
    + simpl in Hsc. rewrite Hs in Hsc. injection Hsc as <- <-.
      rewrite Hr in Hrx. injection Hrx as <-.
      cbn [aggregate_loop]. change (metadata (segment r0)) with (metaData r0).
      rewrite Hfin. eexists _, _. split; [reflexivity|].
      rewrite answered_script, answered_calls, length_app. simpl. done.
    + simpl in Hsc. rewrite Hs in Hsc. injection Hsc as <- ->.
      destruct rs as [|r1 rs]; [discriminate|].
      unfold answers in Hans. rewrite !fmap_cons in Hans.
      injection Hans as Hr1 Hans. rewrite Hr in Hr1. injection Hr1 as <-.
      apply Forall_cons in Hall as [Hnd0 Hall].
      edestruct (aggregate_loop_finishes (poll_link self)
                   (poll_headers self kwargs) (delete "headers" kwargs)
                   pre rs x r rest (S (length (pre ++ x :: rest))) (segment r0))
        as (self' & w' & Hrun & Hs' & Hc & _);
        [apply answered_script|exact Hans|exact Hall|exact Hrx|exact Hfin
        |exact Hnd0|rewrite length_app; lia|].
      exists self', w'. rewrite Hrun. split_and!; try done.
      rewrite Hc, answered_calls, length_app. simpl. lia.
Qed.

(** The scenario of two aggregate segments, 3 of 10 and then 10 of 10:
    two fetches, the second segment returned. *)
Lemma poll_returns_complete_aggregate_witness :
  let w := Scenario.at_time 1700000000
             [Scenario.ok Scenario.partial_aggregate;
              Scenario.ok Scenario.complete_aggregate] in
  isAggregate (metaData Scenario.partial_aggregate) = true ∧
  ∃ self' w',
    poll ∅ Scenario.static_job w =
      (Ret (segment Scenario.complete_aggregate), self', w') ∧
    script w' = [] ∧ length (calls w') = 2.
Proof.
  intros w. split; [reflexivity|].
  destruct (poll_returns_complete_aggregate ∅ Scenario.static_job w
              (Scenario.ok Scenario.partial_aggregate)
              [Scenario.ok Scenario.complete_aggregate]
              Scenario.partial_aggregate eq_refl eq_refl eq_refl) as [_ Hfwd].
  apply (Hfwd [Scenario.ok Scenario.partial_aggregate]
              [Scenario.partial_aggregate]
              (Scenario.ok Scenario.complete_aggregate)
              Scenario.complete_aggregate []).
  - reflexivity.
  - reflexivity.
  - repeat constructor.
  - reflexivity.
  - reflexivity.
Defined.

(** ** Streaming jobs *)

(** Every fetch issues exactly one transport call, whatever comes back. *)
Lemma fetch_one_call link h kw self w :
  calls (_fetch_next_segment link h kw self w).2 =
  (calls w ++ [Call "get" link h kw (issue_time self w)])%list.
Proof.
  destruct (fetch_cases link h kw self w)
    as [(Hs & w1 & Hw & _ & Hc) | [(x & rest & r & Hs & Hr & Hw)
                                 | (x & rest & e & Hs & Hr & Hw)]];
    by rewrite Hw.
Qed.

(** C2.  A [poll] whose first segment is a streaming one ([isAggregate]
    false).  If that segment has [workDone == 0] and the job's [done] flag
    is false, [poll] is exactly one more fetch: two transport calls in all,
    and the second answer is what [poll] returns.  If [workDone != 0] or
    [done] is true, the first segment is returned as it is, after one
    transport call. *)
Theorem poll_streaming kwargs self w x rest r :
  script w = x :: rest →
  result x = inl r →
  isAggregate (metaData r) = false →
  let link := poll_link self in
  let h := poll_headers self kwargs in
  let kw := delete "headers" kwargs in
  let self1 := committed self r (issue_time self w + latency x)%Q in
  let w1 := answered link h kw self w x rest in
  (workDone (metaData r) = 0%Z → done r = false →
     poll kwargs self w = _fetch_next_segment link h kw self1 w1 ∧
     length (calls (poll kwargs self w).2) = length (calls w) + 2 ∧
     ∀ x2 rest2 r2,
       rest = x2 :: rest2 → result x2 = inl r2 →
       ∃ self' w', poll kwargs self w = (Ret (segment r2), self', w') ∧
                   script w' = rest2)
  ∧ (workDone (metaData r) ≠ 0%Z ∨ done r = true →
     poll kwargs self w = (Ret (segment r), self1, w1) ∧
     script w1 = rest ∧
     length (calls w1) = length (calls w) + 1).
Proof.
  intros Hs Hr Hagg link h kw self1 w1.
  pose proof (poll_first_answered kwargs self w x rest r Hs Hr) as Hp.
  cbv zeta in Hp. rewrite Hagg in Hp. fold link h kw self1 w1 in Hp. split.
  - intros Hwd Hdone. rewrite Hwd, Hdone in Hp. simpl in Hp.
    split; [exact Hp|]. split.
    + rewrite Hp, fetch_one_call. unfold w1.
      rewrite answered_calls, !length_app. simpl. lia.
    + intros x2 rest2 r2 -> Hr2. rewrite Hp.
      rewrite (fetch_ok link h kw self1 w1 x2 rest2 r2 eq_refl Hr2).
      by eexists _, _.
  - intros Hcase.
    assert ((workDone (metaData r) =? 0)%Z && negb (done r) = false) as Hc.
    { destruct Hcase as [Hwd | ->].
      - apply Z.eqb_neq in Hwd. by rewrite Hwd.
      - by rewrite andb_false_r. }
    rewrite Hc in Hp. split; [exact Hp|]. split; [done|].
    unfold w1. rewrite answered_calls, length_app. simpl. lia.
Qed.

(** The two streaming scenarios: an empty first segment of a job that is
    not done is followed by one more fetch; on a job that is done it is
    returned after a single fetch. *)
Lemma poll_streaming_witness :
  let w := Scenario.at_time 1700000000
             [Scenario.ok Scenario.empty_streaming;
              Scenario.ok Scenario.streaming] in
  isAggregate (metaData Scenario.empty_streaming) = false ∧
  (∃ self' w', poll ∅ Scenario.live_job w =
                 (Ret (segment Scenario.streaming), self', w') ∧
               script w' = []) ∧
  length (calls (poll ∅ Scenario.live_job w).2) = 2.
Proof.
  intros w. split; [reflexivity|].
  destruct (poll_streaming ∅ Scenario.live_job w
              (Scenario.ok Scenario.empty_streaming)
              [Scenario.ok Scenario.streaming]
              Scenario.empty_streaming eq_refl eq_refl eq_refl) as [Hwarm _].
  destruct (Hwarm eq_refl eq_refl) as (_ & Hcalls & Hret).
  split; [|exact Hcalls].
  exact (Hret (Scenario.ok Scenario.streaming) [] Scenario.streaming
           eq_refl eq_refl).
Defined.

(** ** Static handles *)

(** [poll] leaves the handle showing the [done] flag of the body it
    returns. *)
Lemma poll_shows kwargs self w pr self' w' :
  poll kwargs self w = (Ret pr, self', w') →
  ∃ r, pr = segment r ∧ is_done self' = done r.
Proof.
  intros Hp. apply poll_consumed in Hp as (pre & rs & _ & _ & Ho).
  destruct Ho as (x & r & _ & _ & -> & Hd & _). by exists r.
Qed.

(** C3.  A static handle's [poll] entered with [is_done] true raises
    [HumioQueryJobExhaustedException] and leaves handle and world as they
    were: no transport call.  Entered with [is_done] false it is the
    engine's [poll].  [is_done] is true at entry exactly when the poll
    before returned a segment of a response with [done] true. *)
Theorem static_poll_exhausted kwargs self w :
  (is_done self = true →
     StaticQueryJob_poll kwargs self w =
       (Raise HumioQueryJobExhaustedException, self, w))
  ∧ (is_done self = false →
     StaticQueryJob_poll kwargs self w = poll ∅ self w)
  ∧ (∀ kwargs0 self0 w0 pr,
       StaticQueryJob_poll kwargs0 self0 w0 = (Ret pr, self, w) →
       ∃ r, pr = segment r ∧ is_done self = done r ∧
            (done r = true →
               StaticQueryJob_poll kwargs self w =
                 (Raise HumioQueryJobExhaustedException, self, w) ∧
               calls (StaticQueryJob_poll kwargs self w).2 = calls w)).
Proof.
  split_and!.
  - intros Hd. unfold StaticQueryJob_poll. by rewrite Hd.
  - intros Hd. unfold StaticQueryJob_poll. by rewrite Hd.
  - intros kwargs0 self0 w0 pr Hprev. unfold StaticQueryJob_poll in Hprev.
    destruct (is_done self0); [discriminate|].
    apply poll_shows in Hprev as (r & -> & Hd). exists r.
    split; [done|]. split; [done|]. intros Hdone.
    unfold StaticQueryJob_poll. by rewrite Hd, Hdone.
Qed.

(** The scenario of the static handle: the first [poll] gets a response
    with [done] true; the second raises and leaves the world, with its
    log of a single call, as the first left it. *)
Lemma static_poll_exhausted_witness :
  let w := Scenario.at_time 1700000000
             [Scenario.ok Scenario.streaming_done; Scenario.ok Scenario.streaming] in
  let first := StaticQueryJob_poll ∅ Scenario.static_job w in
  first.1.1 = Ret (segment Scenario.streaming_done) ∧
  length (calls first.2) = 1 ∧
  StaticQueryJob_poll ∅ first.1.2 first.2 =
    (Raise HumioQueryJobExhaustedException, first.1.2, first.2).
Proof.
  intros w first. split; [reflexivity|]. split; [reflexivity|].
  destruct (static_poll_exhausted ∅ first.1.2 first.2) as (Hexhausted & _ & _).
  apply Hexhausted. reflexivity.
Defined.

(** ** Transport failures *)

(** An exchange among answered ones is answered. *)
Lemma answers_lookup xs rs i x :
  answers xs rs → xs !! i = Some x → ∃ r, result x = inl r.
Proof.
  unfold answers. intros Hans Hx.
  assert ((result <$> xs) !! i = Some (result x)) as Hi
    by (by rewrite list_lookup_fmap, Hx).
  rewrite Hans, list_lookup_fmap in Hi.
  destruct (rs !! i) as [r|]; [|discriminate].
  exists r. by injection Hi as <-.
Qed.

(** The loop stops at a failing fetch: when the script holds a failing
    exchange after unfinished segments, the loop raises for it and leaves
    what follows it in the script. *)
Lemma aggregate_loop_fails link h kw :
  ∀ pre rs x f rest fuel pr0 self w,
    script w = (pre ++ x :: rest)%list →
    answers pre rs →
    Forall not_done_yet rs →
    result x = inr f →
    _aggregate_query_is_not_done (metadata pr0) = true →
    length pre < fuel →
    ∃ self' w',
      aggregate_loop fuel link h kw pr0 self w = (Raise (raised_for f), self', w') ∧
      script w' = rest ∧
      length (calls w') = length (calls w) + S (length pre).
Proof.
  induction pre as [|y pre IH];
    intros rs x f rest fuel pr0 self w Hs Hans Hall Hr Hnd Hfuel;
    (destruct fuel as [|fuel]; [simpl in Hfuel; lia|]).
  - simpl in Hs. cbn [aggregate_loop]. rewrite Hnd. unfold bind.
    rewrite (fetch_err _ _ _ _ _ _ _ _ Hs Hr).
    eexists _, _. split; [reflexivity|].
    rewrite answered_script, answered_calls, length_app. simpl. done.
  - destruct rs as [|r1 rs]; [discriminate|].
    unfold answers in Hans. rewrite !fmap_cons in Hans.
    injection Hans as Hr1 Hans. apply Forall_cons in Hall as [Hnd1 Hall].
    simpl in Hs. cbn [aggregate_loop]. rewrite Hnd. unfold bind.
    rewrite (fetch_ok _ _ _ _ _ _ _ _ Hs Hr1).
    edestruct (IH rs x f rest fuel (segment r1)) as (self' & w' & Hrun & Hs' & Hc);
      [apply answered_script|exact Hans|exact Hall|exact Hr|exact Hnd1
      |simpl in Hfuel; lia|].
    exists self', w'. rewrite Hrun. split_and!; try done.
    rewrite Hc, answered_calls, length_app. simpl. lia.
Qed.

(** No failure is passed over: a failing exchange that a [poll] gets to
    is the one it raises for and the last one it consumes. *)
Lemma poll_stops_at_failure kwargs self w pre x rest f :
  script w = (pre ++ x :: rest)%list →
  result x = inr f →
  length (script (poll kwargs self w).2) ≤ length rest →
  (poll kwargs self w).1.1 = Raise (raised_for f) ∧
  script (poll kwargs self w).2 = rest ∧
  length (calls (poll kwargs self w).2) = length (calls w) + S (length pre).
Proof.
  intros Hs Hr Hle.
  destruct (poll kwargs self w) as [[o self'] w'] eqn:Hp.
  apply poll_consumed in Hp as (pre' & rs' & Hans & (new & Hc & _ & Hlen) & Ho).
  cbn [fst snd] in *.
  assert ((pre ++ x :: rest)%list !! length pre = Some x) as Hx
    by (by apply list_lookup_middle).
  rewrite <- Hs in Hx.
  assert (∀ y, pre' !! length pre = Some y → y ≠ x) as Hin.
  { intros y Hy ->. destruct (answers_lookup _ _ _ _ Hans Hy) as [r Hok].
    congruence. }
  destruct o as [pr|e|].
  - destruct Ho as (y & r & Hs' & Hry & _). exfalso.
    pose proof (f_equal length Hs) as Hl. rewrite Hs', !length_app in Hl.
    simpl in Hl. rewrite Hs' in Hx.
    destruct (decide (length pre < length pre')) as [Hlt|Hge].
    + rewrite lookup_app_l in Hx by done. by apply (Hin x).
    + assert (length pre = length pre') as Heq by lia.
      rewrite Heq, list_lookup_middle in Hx by done. congruence.
  - destruct Ho as (y & f' & Hs' & Hry & ->).
    pose proof (f_equal length Hs) as Hl. rewrite Hs', !length_app in Hl.
    simpl in Hl.
    destruct (decide (length pre < length pre')) as [Hlt|Hge].
    + exfalso. rewrite Hs', lookup_app_l in Hx by done. by apply (Hin x).
    + assert (length pre' = length pre) as Heq by lia.
      rewrite Hs' in Hs. apply app_inj_1 in Hs as [-> [= -> Hrest]]; [|done].
      rewrite Hry in Hr. injection Hr as ->.
      split_and!; try done. rewrite Hc, length_app. lia.
  - destruct Ho as [Hs' _]. exfalso. rewrite Hs' in Hx. by apply (Hin x).
Qed.

(** C4.  A fetch whose transport call fails with status 404 raises
    [HumioQueryJobExpiredException] with the error's message; with any
    other status it raises the [HumioHTTPException] it caught, unchanged.
    This holds for every fetch of a [poll], the first one, the further
    ones of an aggregate job and the extra one of a streaming job: the
    [poll] raises for the failing exchange and stops there, with one
    transport call per exchange up to and including the failing one and
    none after it, so nothing is retried or restarted.  No failure is
    ever passed over: a [poll] that returns has consumed answered
    exchanges only, and a [poll] that raises has raised for the last
    exchange it consumed. *)
Theorem poll_transport_error kwargs self w :
  (∀ link h kw x rest err,
      script w = x :: rest → result x = inr (TransportHTTP err) →
      ∃ w', _fetch_next_segment link h kw self w =
              (Raise (if (status_code err =? 404)%Z
                      then HumioQueryJobExpiredException (message err)
                      else HumioHTTPException err), self, w') ∧
            script w' = rest ∧
            calls w' = (calls w ++ [Call "get" link h kw (issue_time self w)])%list)
  ∧ (∀ x rest err,
      script w = x :: rest → result x = inr (TransportHTTP err) →
      ∃ w', poll kwargs self w =
              (Raise (if (status_code err =? 404)%Z
                      then HumioQueryJobExpiredException (message err)
                      else HumioHTTPException err), self, w') ∧
            script w' = rest ∧ length (calls w') = length (calls w) + 1)
  ∧ (∀ pre rs x rest err,
      pre ≠ [] →
      script w = (pre ++ x :: rest)%list →
      answers pre rs → Forall not_done_yet rs →
      result x = inr (TransportHTTP err) →
      ∃ self' w',
        poll kwargs self w =
          (Raise (if (status_code err =? 404)%Z
                  then HumioQueryJobExpiredException (message err)
                  else HumioHTTPException err), self', w') ∧
        script w' = rest ∧
        length (calls w') = length (calls w) + S (length pre))
  ∧ (∀ x1 r1 x rest err,
      script w = x1 :: x :: rest →
      result x1 = inl r1 →
      isAggregate (metaData r1) = false →
      workDone (metaData r1) = 0%Z → done r1 = false →
      result x = inr (TransportHTTP err) →
      ∃ self' w',
        poll kwargs self w =
          (Raise (if (status_code err =? 404)%Z
                  then HumioQueryJobExpiredException (message err)
                  else HumioHTTPException err), self', w') ∧
        script w' = rest ∧
        length (calls w') = length (calls w) + 2)
  ∧ (∀ pre x rest err,
      script w = (pre ++ x :: rest)%list →
      result x = inr (TransportHTTP err) →
      length (script (poll kwargs self w).2) ≤ length rest →
      (poll kwargs self w).1.1 =
        Raise (if (status_code err =? 404)%Z
               then HumioQueryJobExpiredException (message err)
               else HumioHTTPException err) ∧
      script (poll kwargs self w).2 = rest ∧
      length (calls (poll kwargs self w).2) = length (calls w) + S (length pre))
  ∧ (∀ pr self' w',
      poll kwargs self w = (Ret pr, self', w') →
      ∃ pre rs x r,
        script w = (pre ++ x :: script w')%list ∧
        answers pre rs ∧ result x = inl r ∧ pr = segment r ∧
        length (calls w') = length (calls w) + S (length pre))
  ∧ (∀ e self' w',
      poll kwargs self w = (Raise e, self', w') →
      ∃ pre rs x f,
        script w = (pre ++ x :: script w')%list ∧
        answers pre rs ∧ result x = inr f ∧
        e = match f with
            | TransportHTTP err =>
                if (status_code err =? 404)%Z
                then HumioQueryJobExpiredException (message err)
                else HumioHTTPException err
            | TransportOther class_name => ForeignException class_name
            end ∧
        length (calls w') = length (calls w) + S (length pre)).
Proof.
  split_and!.
  - intros link h kw x rest err Hs Hr. eexists.
    split; [exact (fetch_err _ _ _ _ _ _ _ _ Hs Hr)|done].
  - intros x rest err Hs Hr. eexists.
    split; [exact (poll_first_raises _ _ _ _ _ _ Hs Hr)|].
    rewrite answered_script, answered_calls, length_app. simpl. done.
  - intros pre rs x rest err Hne Hs Hans Hall Hr.
    destruct pre as [|x0 pre]; [done|].
    destruct rs as [|r0 rs]; [discriminate|].
    unfold answers in Hans. rewrite !fmap_cons in Hans.
    injection Hans as Hr0 Hans. apply Forall_cons in Hall as [Hnd0 Hall].
    simpl in Hs. rewrite (poll_first_answered _ _ _ _ _ _ Hs Hr0). cbv zeta.
    assert (isAggregate (metaData r0) = true) as ->.
    { unfold not_done_yet, _aggregate_query_is_not_done in Hnd0.
      by apply andb_true_iff in Hnd0 as [? _]. }
    edestruct (aggregate_loop_fails (poll_link self) (poll_headers self kwargs)
                 (delete "headers" kwargs) pre rs x (TransportHTTP err) rest
                 (S (length (pre ++ x :: rest))) (segment r0))
      as (self' & w' & Hrun & Hs' & Hc);
      [apply answered_script|exact Hans|exact Hall|exact Hr|exact Hnd0
      |rewrite length_app; lia|].
    exists self', w'. rewrite Hrun. split_and!; try done.
    rewrite Hc, answered_calls, length_app. simpl. lia.
  - intros x1 r1 x rest err Hs Hr1 Hagg Hwd Hdone Hr.
    rewrite (poll_first_answered _ _ _ _ _ _ Hs Hr1). cbv zeta.
    rewrite Hagg, Hwd, Hdone. cbn [Z.eqb andb negb].
    rewrite (fetch_err _ _ _ _ _ x rest _ (answered_script _ _ _ _ _ _ _) Hr).
    eexists _, _. split; [reflexivity|].
    rewrite answered_script, !answered_calls, !length_app. simpl.
    split; [done|lia].
  - intros pre x rest err Hs Hr Hle.
    exact (poll_stops_at_failure kwargs self w pre x rest _ Hs Hr Hle).
  - intros pr self' w' Hp.
    apply poll_consumed in Hp as (pre & rs & Hans & (new & Hc & _ & Hlen) & Ho).
    destruct Ho as (x & r & Hs & Hr & -> & _). exists pre, rs, x, r.
    split_and!; try done. rewrite Hc, length_app. lia.
  - intros e self' w' Hp.
    apply poll_consumed in Hp as (pre & rs & Hans & (new & Hc & _ & Hlen) & Ho).
    destruct Ho as (x & f & Hs & Hr & ->). exists pre, rs, x, f.
    split_and!; try done. rewrite Hc, length_app. lia.
Qed.

(** A job that expires while an aggregate poll is under way: the second
    fetch is answered with 404, [poll] raises
    [HumioQueryJobExpiredException] after two calls and does not touch the
    finished segment that the server would have given next.  A 503 on the
    first fetch stays the [HumioHTTPException] it was. *)
Lemma poll_transport_error_witness :
  let later := [Scenario.ok Scenario.complete_aggregate] in
  let expired := Scenario.at_time 1700000000
                   (Scenario.ok Scenario.partial_aggregate
                    :: Scenario.failing 404 "Not Found" :: later) in
  let down := Scenario.at_time 1700000000
                (Scenario.failing 503 "Unavailable" :: later) in
  (∃ self' w', poll ∅ Scenario.live_job expired =
                 (Raise (HumioQueryJobExpiredException "Not Found"), self', w') ∧
               script w' = later ∧
               length (calls w') = length (calls expired) + 2)
  ∧ (∃ w', poll ∅ Scenario.live_job down =
             (Raise (HumioHTTPException (HTTPError "Unavailable" 503)),
              Scenario.live_job, w') ∧
           script w' = later ∧ length (calls w') = length (calls down) + 1).
Proof.
  intros later expired down. split.
  - destruct (poll_transport_error ∅ Scenario.live_job expired)
      as (_ & _ & Hlater & _).
    apply (Hlater [Scenario.ok Scenario.partial_aggregate]
             [Scenario.partial_aggregate]
             (Scenario.failing 404 "Not Found") later
             (HTTPError "Not Found" 404)).
    + discriminate.
    + reflexivity.
    + reflexivity.
    + repeat constructor.
    + reflexivity.
  - destruct (poll_transport_error ∅ Scenario.live_job down) as (_ & Hfirst & _).
    exact (Hfirst (Scenario.failing 503 "Unavailable") later
             (HTTPError "Unavailable" 503) eq_refl eq_refl).
Defined.

(** ** The commit point of a fetch *)

Lemma committed_committed self r1 t1 r2 t2 :
  committed (committed self r1 t1) r2 t2 = committed self r2 t2.
Proof. reflexivity. Qed.

(** After one fetch the handle is the one given, or that one committed to
    the body that came back. *)
Lemma fetch_handle link h kw self w :
  let '(_, self', _) := _fetch_next_segment link h kw self w in
  self' = self ∨ ∃ r t, self' = committed self r t.
Proof.
  destruct (fetch_cases link h kw self w)
    as [(Hs & w1 & Hw & _) | [(x & rest & r & Hs & Hr & Hw)
                            | (x & rest & e & Hs & Hr & Hw)]];
    rewrite Hw; [by left | right | by left].
  by eexists _, _.
Qed.

Lemma loop_run_handle link h kw pr self w o self' w' :
  loop_run link h kw pr self w o self' w' →
  self' = self ∨ ∃ r t, self' = committed self r t.
Proof.
  induction 1 as [pr self w Hnd | pr self w self' w' Hnd Hf
                 | pr self w e self' w' Hnd Hf
                 | pr self w pr1 self1 w1 o self' w' Hnd Hf Hrun IH].
  - by left.
  - pose proof (fetch_handle link h kw self w) as Hh. by rewrite Hf in Hh.
  - pose proof (fetch_handle link h kw self w) as Hh. by rewrite Hf in Hh.
  - pose proof (fetch_handle link h kw self w) as Hh. rewrite Hf in Hh.
    destruct Hh as [-> | (r & t & ->)]; [exact IH|].
    right. destruct IH as [-> | (r' & t' & ->)]; by eexists _, _.
Qed.

Lemma poll_handle kwargs self w :
  let '(_, self', _) := poll kwargs self w in
  self' = self ∨ ∃ r t, self' = committed self r t.
Proof.
  destruct (script w) as [|x rest] eqn:Hs.
  { rewrite (poll_first_starved kwargs self w Hs). apply fetch_handle. }
  destruct (result x) as [r|e] eqn:Hr.
  2:{ rewrite (poll_first_raises _ _ _ _ _ _ Hs Hr). by left. }
  rewrite (poll_first_answered _ _ _ _ _ _ Hs Hr). cbv zeta.
  destruct (isAggregate (metaData r)).
  - match goal with |- context [aggregate_loop ?f ?l ?hh ?k ?p ?s0 ?w0] =>
      destruct (aggregate_loop f l hh k p s0 w0) as [[o self'] w'] eqn:Hl end.
    apply aggregate_loop_fuel in Hl; [|rewrite answered_script; lia].
    apply loop_run_handle in Hl as [-> | (r' & t' & ->)];
      right; by eexists _, _.
  - destruct ((workDone (metaData r) =? 0)%Z && negb (done r)).
    + match goal with |- context [_fetch_next_segment ?l ?hh ?k ?s0 ?w0] =>
        pose proof (fetch_handle l hh k s0 w0) as Hh;
        destruct (_fetch_next_segment l hh k s0 w0) as [[o self'] w'] end.
      destruct Hh as [-> | (r' & t' & ->)]; right; by eexists _, _.
    + right. by eexists _, _.
Qed.

(** C5.  A fetch that does not come back with a body (the transport call
    raised, or was never answered) returns the handle it was given: all of
    its fields, so [wait_time], [is_done], [is_cancelled] and
    [time_at_last_poll] too.  A fetch that comes back with a body [r] sets
    these four fields together, to [r]'s values and to the time the call
    completed at, and no other field.  So after a whole [poll], however it
    ends, the handle is the one given or that one with the four fields of
    one and the same successful call. *)
Theorem fetch_commits_on_success_only link h kw self w :
  (let '(o, self', w') := _fetch_next_segment link h kw self w in
   match o with
   | Ret pr =>
       ∃ x rest r,
         script w = x :: rest ∧ result x = inl r ∧ pr = segment r ∧
         wait_time self' = pollAfter (metaData r) ∧
         is_done self' = done r ∧
         is_cancelled self' = cancelled r ∧
         time_at_last_poll self' = now w' ∧
         now w' = (issue_time self w + latency x)%Q ∧
         self' = committed self r (now w')
   | Raise e =>
       self' = self ∧
       ∃ x rest err, script w = x :: rest ∧ result x = inr err
   | Starved => self' = self ∧ script w = []
   end)
  ∧ (∀ kwargs,
       let '(_, self', _) := poll kwargs self w in
       self' = self ∨
       ∃ r t, wait_time self' = pollAfter (metaData r) ∧
              is_done self' = done r ∧
              is_cancelled self' = cancelled r ∧
              time_at_last_poll self' = t ∧
              self' = committed self r t).
Proof.
  split.
  - destruct (fetch_cases link h kw self w)
      as [(Hs & w1 & Hw & _) | [(x & rest & r & Hs & Hr & Hw)
                              | (x & rest & e & Hs & Hr & Hw)]];
      rewrite Hw.
    + done.
    + exists x, rest, r. split_and!; done.
    + split; [done|]. by exists x, rest, e.
  - intros kwargs. pose proof (poll_handle kwargs self w) as Hh.
    destruct (poll kwargs self w) as [[o self'] w'].
    destruct Hh as [-> | (r & t & ->)]; [by left|].
    right. exists r, t. split_and!; done.
Qed.

(** ** Pacing *)

(** Linear arithmetic over the rationals, with the division by 1000 that
    turns milliseconds into seconds written as a product. *)
Ltac millis :=
  unfold Qdiv in *; change (/ 1000)%Q with (1 # 1000)%Q in *; lra.

Lemma wait_sleeps self w :
  (now w - time_at_last_poll self < inject_Z (wait_time self))%Q →
  _wait_till_next_poll self w =
  time_sleep ((inject_Z (wait_time self) - (now w - time_at_last_poll self))
              / 1000)%Q w.
Proof.
  intros Hlt. unfold _wait_till_next_poll.
  destruct (Qlt_le_dec _ _) as [_|Hle]; [done|].
  exfalso. by apply (Qlt_not_le _ _ Hlt).
Qed.

Lemma wait_passes self w :
  (inject_Z (wait_time self) - (now w - time_at_last_poll self) <= 0)%Q →
  _wait_till_next_poll self w = w.
Proof.
  intros Hle. unfold _wait_till_next_poll.
  destruct (Qlt_le_dec _ _) as [Hlt|_]; [|done].
  exfalso. lra.
Qed.

(** The gate never lets a call out before the wait has passed, when the
    clock does not run backwards and a sleep is not cut short. *)
Lemma issue_time_lower_bound self w :
  (time_at_last_poll self <= now w)%Q →
  (∀ x rest, script w = x :: rest → (0 <= oversleep x)%Q) →
  (time_at_last_poll self + inject_Z (wait_time self) / 1000
     <= issue_time self w)%Q.
Proof.
  intros Hmono Hover. unfold issue_time, _wait_till_next_poll.
  destruct (Qlt_le_dec _ _) as [Hlt|Hle].
  - unfold time_sleep. cbn [now].
    assert (0 <= match script w with [] => 0 | x :: _ => oversleep x end)%Q
      as Hextra.
    { destruct (script w) as [|x rest] eqn:Hs; [lra|by eapply Hover]. }
    revert Hextra. generalize (match script w with
                               | [] => 0%Q | x :: _ => oversleep x end).
    intros extra Hextra. millis.
  - millis.
Qed.

(** C6.  The pacing gate at a handle [self] in a world [w], with
    [elapsed = now - time_at_last_poll] and [wait_time] in milliseconds.
    - When [elapsed < wait_time] the gate sleeps, once, for
      [(wait_time - elapsed) / 1000].
    - When [wait_time - elapsed] is not positive it does nothing.
    - On a handle fresh from [__init__] it does nothing (the clock reads
      a time at or after the epoch).
    - After a successful call that completed at [T0] and set
      [wait_time = W], the next transport call is issued no earlier than
      [T0] plus [W] milliseconds (the clock does not run backwards and a
      sleep lasts at least as long as asked). *)
Theorem pacing_gate self w :
  let elapsed := (now w - time_at_last_poll self)%Q in
  let waitTime := inject_Z (wait_time self) in
  ((elapsed < waitTime)%Q →
     _wait_till_next_poll self w =
       time_sleep ((waitTime - elapsed) / 1000)%Q w ∧
     sleeps (_wait_till_next_poll self w) =
       (sleeps w ++ [((waitTime - elapsed) / 1000)%Q])%list)
  ∧ ((waitTime - elapsed <= 0)%Q → _wait_till_next_poll self w = w)
  ∧ (∀ c q b r t,
       (0 <= now w)%Q →
       _wait_till_next_poll (BaseQueryJob__init__ c q b r t) w = w)
  ∧ (∀ link0 h0 kw0 self0 w0 pr w1,
       _fetch_next_segment link0 h0 kw0 self0 w0 = (Ret pr, self, w1) →
       (now w1 <= now w)%Q →
       (∀ x rest, script w = x :: rest → (0 <= oversleep x)%Q) →
       time_at_last_poll self = now w1 ∧
       wait_time self = pollAfter (metadata pr) ∧
       ∀ link h kw,
         ∃ c, calls (_fetch_next_segment link h kw self w).2
                = (calls w ++ [c])%list ∧
              (now w1 + inject_Z (pollAfter (metadata pr)) / 1000
                 <= c_time c)%Q).
Proof.
  intros elapsed waitTime. split_and!.
  - intros Hlt. rewrite (wait_sleeps self w Hlt). done.
  - apply wait_passes.
  - intros c q b r t Hnow. apply wait_passes.
    cbn [BaseQueryJob__init__ wait_time time_at_last_poll].
    change (inject_Z 0) with 0%Q. lra.
  - intros link0 h0 kw0 self0 w0 pr w1 Hprev Hmono Hover.
    destruct (fetch_cases link0 h0 kw0 self0 w0)
      as [(_ & w2 & Hw & _) | [(x & rest & r & _ & _ & Hw)
                             | (x & rest & e & _ & _ & Hw)]];
      rewrite Hw in Hprev; try discriminate.
    injection Hprev as <- <- <-. split; [done|]. split; [done|].
    intros link h kw. eexists. split; [apply fetch_one_call|].
    cbn [c_time].
    exact (issue_time_lower_bound
             (committed self0 r (issue_time self0 w0 + latency x)%Q) w
             Hmono Hover).
Qed.

(** A second fetch right after a first one that asked for 200 ms: the
    call goes out no earlier than 0.2 s after the first completed. *)
Lemma pacing_gate_witness :
  let link := poll_link Scenario.live_job in
  let w0 := Scenario.at_time 1700000000
              [Scenario.ok Scenario.streaming; Scenario.ok Scenario.streaming] in
  let first := _fetch_next_segment link ∅ ∅ Scenario.live_job w0 in
  ∃ c, calls (_fetch_next_segment link ∅ ∅ first.1.2 first.2).2
         = (calls first.2 ++ [c])%list ∧
       (now first.2 + inject_Z 200 / 1000 <= c_time c)%Q.
Proof.
  intros link w0 first.
  destruct (pacing_gate first.1.2 first.2) as (_ & _ & _ & Hnext).
  destruct (Hnext link ∅ ∅ Scenario.live_job w0 (segment Scenario.streaming)
              first.2 eq_refl (Qle_refl _)) as (_ & _ & Hcall).
  - intros x rest [= <- _]. done.
  - exact (Hcall link ∅ ∅).
Defined.

(** ** The result stream *)

(** A generator of [poll_until_done] yields at most once: after the one
    [poll] of the first pull, every pull raises [StopIteration] and
    touches neither the handle nor the world. *)
Lemma generator_next_after_yield g self w :
  g ≠ GenCreated →
  generator_next g self w = (Raise StopIteration, GenFinished, self, w).
Proof. by destruct g. Qed.

Lemma pull_yields_once n self w :
  let '(outs, g, self', w') := pull (S (S n)) GenCreated self w in
  ∀ r, head outs = Some (Ret r) →
       outs = [Ret r; Raise StopIteration] ∧ g = GenFinished ∧
       self_poll ∅ self w = (Ret r, self', w').
Proof.
  cbn [pull generator_next].
  destruct (self_poll ∅ self w) as [[[r|e|] self1] w1].
  - cbn. intros r' [= <-]. done.
  - cbn. intros r' [=].
  - cbn. intros r' [=].
Qed.

(** C7, at a live handle whose server has two segments ready: the first
    pull polls once and yields the first segment; the second pull raises
    [StopIteration] without polling (one transport call in all, the
    second segment is still in the script), where the claim has it poll
    again and yield the second segment. *)
Theorem poll_until_done_stops_after_one :
  let w := Scenario.at_time 1700000000
             [Scenario.ok Scenario.streaming; Scenario.ok Scenario.streaming_done] in
  let '(outs, g, self', w') := pull 2 GenCreated Scenario.live_job w in
  outs = [Ret (segment Scenario.streaming); Raise StopIteration] ∧
  g = GenFinished ∧
  length (calls w') = 1 ∧
  script w' = [Scenario.ok Scenario.streaming_done] ∧
  is_done self' = false.
Proof. vm_compute. done. Qed.

(** ** What goes over the wire *)

(** The calls a [poll] adds to the log: at least one, each a [GET] of the
    job's link with the merged headers and the remaining keyword
    arguments. *)
Lemma poll_calls kwargs self w :
  ∃ new, calls (poll kwargs self w).2 = (calls w ++ new)%list ∧
         new ≠ [] ∧
         Forall (is_get (poll_link self) (poll_headers self kwargs)
                        (delete "headers" kwargs)) new.
Proof.
  destruct (poll kwargs self w) as [[o self'] w'] eqn:Hp.
  apply poll_consumed in Hp as (pre & rs & _ & (new & Hc & Hall & Hlen) & _).
  exists new. split_and!; try done. by destruct new.
Qed.

(** The merged headers, key by key: the caller's value when the caller
    gave one, the default otherwise. *)
Lemma poll_headers_lookup self kwargs k :
  poll_headers self kwargs !! k =
  match default ∅ (kwargs !! "headers") !! k with
  | Some v => Some v
  | None =>
      if decide (k = "Content-Type") then Some "application/json"
      else if decide (k = "Authorization")
           then Some ("Bearer " +:+ user_token self)
           else None
  end.
Proof.
  unfold poll_headers, _default_user_headers.
  rewrite lookup_union.
  destruct (default ∅ (kwargs !! "headers") !! k) as [v|] eqn:Hk.
  - match goal with |- Some v ∪ ?o = _ => by destruct o end.
  - rewrite (left_id_L None union), lookup_insert.
    destruct (decide ("Content-Type" = k)) as [<-|Hne].
    + by rewrite decide_True.
    + rewrite decide_False by done. rewrite lookup_insert.
      destruct (decide ("Authorization" = k)) as [<-|Hne'].
      * by rewrite decide_True.
      * rewrite decide_False by done. apply lookup_empty.
Qed.

(** C8, as the claim has it, fails on the path: the call goes to
    ["dataspaces/sandbox/queryjobs/q2"], not to ["sandbox/queryjobs/q2"]. *)
Lemma fetch_path_counterexample :
  let self := Scenario.live_job in
  let w := Scenario.at_time 1700000000 [Scenario.ok Scenario.streaming] in
  ∃ c, calls (poll ∅ self w).2 = [c] ∧
       c_endpoint c ≠ repository self +:+ "/queryjobs/" +:+ query_id self.
Proof.
  eexists. split; [vm_compute; reflexivity|]. vm_compute. discriminate.
Qed.

(** C8, amended.  Every segment fetch issues exactly one transport call,
    a GET; in a [poll] the calls go to the path
    [dataspaces/{repository}/queryjobs/{queryId}] and carry the default
    headers ([Authorization: Bearer <token>] and
    [Content-Type: application/json]) merged with the caller's headers,
    the caller's value winning on a key both have. *)
Theorem poll_transport_calls kwargs self w :
  (∀ link h kw self0 w0,
      calls (_fetch_next_segment link h kw self0 w0).2 =
      (calls w0 ++ [Call "get" link h kw (issue_time self0 w0)])%list)
  ∧ ∃ new,
      calls (poll kwargs self w).2 = (calls w ++ new)%list ∧
      new ≠ [] ∧
      ∀ c, c ∈ new →
        c_verb c = "get" ∧
        c_endpoint c =
          "dataspaces/" +:+ repository self +:+ "/queryjobs/" +:+ query_id self ∧
        ∀ k, c_headers c !! k =
             match default ∅ (kwargs !! "headers") !! k with
             | Some v => Some v
             | None =>
                 if decide (k = "Content-Type") then Some "application/json"
                 else if decide (k = "Authorization")
                      then Some ("Bearer " +:+ user_token self)
                      else None
             end.
Proof.
  split; [intros; apply fetch_one_call|].
  destruct (poll_calls kwargs self w) as (new & Hc & Hne & Hall).
  exists new. split_and!; try done. intros c Hin.
  rewrite Forall_forall in Hall. destruct (Hall c Hin) as (Hv & He & Hh & _).
  split_and!; try done. intros k. rewrite Hh. apply poll_headers_lookup.
Qed.

(** ** Disposal of a live handle *)




(** The same at the code's own input, evaluated. *)
Example live_disposal_after_404 :
  let w := Scenario.at_time 1700000000 [Scenario.failing 404 "Not Found"] in
  let '(o, self', w') := LiveQueryJob__del__ Scenario.live_job w in
  o = Ret tt ∧ (c_verb <$> calls w') = ["delete"] ∧
  (c_endpoint <$> calls w') = ["dataspaces/sandbox/queryjobs/q2"].
Proof. vm_compute. done. Qed.

(** ** Keyword arguments of a static handle's poll *)

Lemma poll_headers_empty self : poll_headers self ∅ = _default_user_headers self.
Proof.
  unfold poll_headers. rewrite lookup_empty. simpl.
  apply (left_id_L ∅ (∪)).
Qed.

(** C10.  [StaticQueryJob.poll] does not pass its keyword arguments on:
    it behaves as with none, and every transport call it makes carries
    the default headers alone and no further keyword arguments.  The
    [poll] of a live handle is the engine's, which merges the caller's
    headers in and passes the other keyword arguments on. *)
Theorem static_poll_drops_kwargs kwargs self w :
  StaticQueryJob_poll kwargs self w = StaticQueryJob_poll ∅ self w
  ∧ (∃ new,
       calls (StaticQueryJob_poll kwargs self w).2 = (calls w ++ new)%list ∧
       ∀ c, c ∈ new →
            c_headers c = _default_user_headers self ∧ c_kwargs c = ∅)
  ∧ (cls self = LiveQueryJob →
     ∃ new,
       calls (self_poll kwargs self w).2 = (calls w ++ new)%list ∧
       new ≠ [] ∧
       ∀ c, c ∈ new →
            c_headers c =
              default ∅ (kwargs !! "headers") ∪ _default_user_headers self ∧
            c_kwargs c = delete "headers" kwargs).
Proof.
  split_and!.
  - reflexivity.
  - unfold StaticQueryJob_poll. destruct (is_done self).
    + exists []. rewrite app_nil_r. split; [done|]. intros c Hin.
      by apply elem_of_nil in Hin.
    + destruct (poll_calls ∅ self w) as (new & Hc & _ & Hall).
      exists new. split; [exact Hc|]. intros c Hin.
      rewrite Forall_forall in Hall. destruct (Hall c Hin) as (_ & _ & Hh & Hk).
      rewrite Hh, Hk, poll_headers_empty. split; [done|]. apply delete_empty.
  - intros Hlive. unfold self_poll. rewrite Hlive.
    destruct (poll_calls kwargs self w) as (new & Hc & Hne & Hall).
    exists new. split_and!; try done. intros c Hin.
    rewrite Forall_forall in Hall. by destruct (Hall c Hin) as (_ & _ & Hh & Hk).
Qed.

(** The same keyword arguments, a header and a parameter, given to the
    [poll] of a static and of a live handle: the static handle's call
    carries neither, the live handle's carries both. *)
Lemma static_poll_drops_kwargs_witness :
  let kwargs : gmap string (gmap string string) :=
    {[ "headers" := {[ "X-Trace" := "1" ]}; "params" := {[ "limit" := "10" ]} ]} in
  let w := Scenario.at_time 1700000000 [Scenario.ok Scenario.streaming] in
  cls Scenario.live_job = LiveQueryJob ∧
  ((λ c, (c_headers c !! "X-Trace", c_kwargs c !! "params")) <$>
     calls (StaticQueryJob_poll kwargs Scenario.static_job w).2) = [(None, None)] ∧
  ∃ new,
    calls (self_poll kwargs Scenario.live_job w).2 = (calls w ++ new)%list ∧
    new ≠ [] ∧
    ∀ c, c ∈ new →
         c_headers c =
           default ∅ (kwargs !! "headers") ∪ _default_user_headers Scenario.live_job ∧
         c_kwargs c = delete "headers" kwargs.
Proof.
  intros kwargs w. split; [reflexivity|]. split; [vm_compute; reflexivity|].
  exact (proj2 (proj2 (static_poll_drops_kwargs kwargs Scenario.live_job w))
           eq_refl).
Defined.

(** * Further properties of the engine *)

(** ** Which exceptions a poll can raise *)



(** What [poll] raises is what one of its fetches raised for a transport
    error, which is never the exhaustion error. *)
Lemma poll_raise_is_raised_for kwargs self w e self' w' :
  poll kwargs self w = (Raise e, self', w') → ∃ err, e = raised_for err.
Proof.
  intros Hp.
  apply poll_consumed in Hp as (pre & rs & _ & _ & x & err & _ & _ & ->).
  by exists err.
Qed.

Lemma raised_for_not_exhausted f :
  raised_for f ≠ HumioQueryJobExhaustedException.
Proof.
  destruct f as [err|class_name]; [|done].
  unfold raised_for. by destruct (status_code err =? 404)%Z.
Qed.

(** X2.  A static handle's [poll] raises the exhaustion error exactly
    when [is_done] is true at entry, and then nothing else happened; any
    other exception it raises is one of the engine's. *)
Theorem static_poll_raises kwargs self w e self' w' :
  StaticQueryJob_poll kwargs self w = (Raise e, self', w') →
  (is_done self = true ∧ e = HumioQueryJobExhaustedException ∧
   self' = self ∧ w' = w)
  ∨ (is_done self = false ∧ e ≠ HumioQueryJobExhaustedException ∧
     length (calls w) < length (calls w')).
Proof.
  unfold StaticQueryJob_poll. destruct (is_done self) eqn:Hd.
  - intros [= <- <- <-]. by left.
  - intros Hp. right. split; [done|]. split.
    + destruct (poll_raise_is_raised_for _ _ _ _ _ _ Hp) as [err ->].
      apply raised_for_not_exhausted.
    + apply poll_consumed in Hp as (pre & rs & _ & (new & Hc & _ & Hlen) & _).
      rewrite Hc, length_app. lia.
Qed.

Lemma static_poll_raises_witness :
  let w := Scenario.at_time 1700000000 [Scenario.failing 404 "Not Found"] in
  let r := StaticQueryJob_poll ∅ Scenario.static_job w in
  (is_done Scenario.static_job = true ∧
   HumioQueryJobExpiredException "Not Found" = HumioQueryJobExhaustedException ∧
   r.1.2 = Scenario.static_job ∧ r.2 = w)
  ∨ (is_done Scenario.static_job = false ∧
     HumioQueryJobExpiredException "Not Found" ≠ HumioQueryJobExhaustedException ∧
     length (calls w) < length (calls r.2)).
Proof.
  intros w r.
  exact (static_poll_raises ∅ Scenario.static_job w _ r.1.2 r.2 eq_refl).
Defined.

(** ** The flags of the handle at entry *)

Lemma issue_time_with_flags self d c w :
  issue_time (with_flags self d c) w = issue_time self w.
Proof. reflexivity. Qed.

(** X3.  The engine's [poll] does not look at the handle's [is_done] and
    [is_cancelled] as they are at entry: with any other values it ends
    the same way, in the same world, and, when it returns, with the same
    handle.  So a live handle goes on polling a job that has reported
    itself done or cancelled. *)
Theorem poll_ignores_entry_flags kwargs self w d c :
  (poll kwargs (with_flags self d c) w).1.1 = (poll kwargs self w).1.1 ∧
  (poll kwargs (with_flags self d c) w).2 = (poll kwargs self w).2 ∧
  ∀ pr, (poll kwargs self w).1.1 = Ret pr →
        (poll kwargs (with_flags self d c) w).1.2 = (poll kwargs self w).1.2.
Proof.
  destruct (script w) as [|x rest] eqn:Hs.
  { rewrite !(poll_first_starved kwargs _ w Hs).
    destruct (fetch_starved (poll_link self) (poll_headers self kwargs)
                (delete "headers" kwargs) self w Hs) as (w1 & Hw1 & Hs1 & Hc1).
    unfold _fetch_next_segment, call_rest in *.
    change (_wait_till_next_poll (with_flags self d c) w)
      with (_wait_till_next_poll self w).
    rewrite wait_script, Hs in *. cbn. split_and!; try done. }
  destruct (result x) as [r|e] eqn:Hr.
  - rewrite !(poll_first_answered kwargs _ w x rest r Hs Hr). cbv zeta.
    split_and!; try done.
  - rewrite !(poll_first_raises kwargs _ w x rest e Hs Hr). cbn.
    split_and!; try done.
Qed.

(** ** Handle and result stay in step *)

Lemma fetch_clock link h kw self w pr self' w' :
  _fetch_next_segment link h kw self w = (Ret pr, self', w') →
  time_at_last_poll self' = now w'.
Proof.
  intros Hf.
  destruct (fetch_cases link h kw self w)
    as [(_ & w1 & Hw & _) | [(x & rest & r & _ & _ & Hw)
                           | (x & rest & e & _ & _ & Hw)]];
    rewrite Hw in Hf; try discriminate.
  by injection Hf as <- <- <-.
Qed.

Lemma loop_run_clock link h kw pr self w o self' w' :
  loop_run link h kw pr self w o self' w' →
  time_at_last_poll self = now w →
  ∀ pr', o = Ret pr' → time_at_last_poll self' = now w'.
Proof.
  induction 1 as [pr self w Hnd | pr self w self' w' Hnd Hf
                 | pr self w e self' w' Hnd Hf
                 | pr self w pr1 self1 w1 o self' w' Hnd Hf Hrun IH];
    intros Hclock pr' Ho; try discriminate.
  - exact Hclock.
  - apply (IH (fetch_clock _ _ _ _ _ _ _ _ Hf) pr' Ho).
Qed.

(** X4.  When [poll] returns a segment, the handle it leaves is in step
    with it: the segment is that of the body [r] of the last exchange
    [poll] consumed, the handle's [is_done], [is_cancelled] and
    [wait_time] are the [done], [cancelled] and [pollAfter] of that same
    body (not of an earlier one), and [time_at_last_poll] is the time
    [poll] returns at. *)
Theorem poll_result_in_step kwargs self w pr self' w' :
  poll kwargs self w = (Ret pr, self', w') →
  ∃ pre x r,
    script w = (pre ++ x :: script w')%list ∧
    result x = inl r ∧
    pr = mkPollResult (events r) (metaData r) ∧
    is_done self' = done r ∧
    is_cancelled self' = cancelled r ∧
    wait_time self' = pollAfter (metaData r) ∧
    time_at_last_poll self' = now w'.
Proof.
  intros Hp.
  assert (time_at_last_poll self' = now w') as Hclock.
  { destruct (script w) as [|x rest] eqn:Hs.
    { rewrite (poll_first_starved kwargs self w Hs) in Hp.
      by apply fetch_clock in Hp. }
    destruct (result x) as [r|e] eqn:Hr.
    2:{ by rewrite (poll_first_raises _ _ _ _ _ _ Hs Hr) in Hp. }
    rewrite (poll_first_answered _ _ _ _ _ _ Hs Hr) in Hp. cbv zeta in Hp.
    destruct (isAggregate (metaData r)).
    + apply aggregate_loop_fuel in Hp; [|rewrite answered_script; lia].
      by apply (loop_run_clock _ _ _ _ _ _ _ _ _ Hp eq_refl pr).
    + destruct ((workDone (metaData r) =? 0)%Z && negb (done r)).
      * by apply fetch_clock in Hp.
      * by injection Hp as <- <- <-. }
  apply poll_consumed in Hp
    as (pre & rs & _ & _ & x & r & Hs & Hr & -> & Hd & Hc & Hw).
  exists pre, x, r. split_and!; done.
Qed.

(** The aggregate scenario: the handle shows [done] true, which only the
    second body carries. *)
Lemma poll_result_in_step_witness :
  let w := Scenario.at_time 1700000000
             [Scenario.ok Scenario.partial_aggregate;
              Scenario.ok Scenario.complete_aggregate] in
  let p := poll ∅ Scenario.live_job w in
  ∃ pre x r,
    script w = (pre ++ x :: script p.2)%list ∧
    result x = inl r ∧
    segment Scenario.complete_aggregate = mkPollResult (events r) (metaData r) ∧
    is_done p.1.2 = done r ∧
    is_cancelled p.1.2 = cancelled r ∧
    wait_time p.1.2 = pollAfter (metaData r) ∧
    time_at_last_poll p.1.2 = now p.2.
Proof.
  intros w p.
  exact (poll_result_in_step ∅ Scenario.live_job w _ p.1.2 p.2 eq_refl).
Defined.

(** ** The configuration of a handle *)

(** Disposal returns the handle it was given. *)
Lemma disposal_keeps_handle self w :
  (LiveQueryJob__del__ self w).1.2 = self.
Proof.
  unfold LiveQueryJob__del__, call_rest.
  destruct (script w) as [|x rest]; [done|].
  by destruct (result x) as [r|[err|class_name]].
Qed.

Lemma poll_config kwargs self w :
  config (poll kwargs self w).1.2 = config self.
Proof.
  pose proof (poll_handle kwargs self w) as Hh.
  destruct (poll kwargs self w) as [[o self'] w'].
  by destruct Hh as [-> | (r & t & ->)].
Qed.

(** X5.  No method changes what the handle was constructed with: class,
    query id, base url, repository and token are the same after a [poll]
    of either kind, after a pull from the generator and after disposal,
    however the method ends.  So every call of a handle's life goes to the
    same endpoint with the same token. *)
Theorem config_is_immutable kwargs self w :
  config (self_poll kwargs self w).1.2 = config self ∧
  (∀ g, config (generator_next g self w).1.2 = config self) ∧
  config (LiveQueryJob__del__ self w).1.2 = config self ∧
  poll_link (self_poll kwargs self w).1.2 = poll_link self ∧
  _default_user_headers (self_poll kwargs self w).1.2 = _default_user_headers self.
Proof.
  assert (∀ kw, config (self_poll kw self w).1.2 = config self) as Hpoll.
  { intros kw. unfold self_poll, StaticQueryJob_poll.
    destruct (cls self); try apply poll_config.
    destruct (is_done self); [done|apply poll_config]. }
  split_and!.
  - apply Hpoll.
  - intros [| |]; try done. cbn [generator_next].
    specialize (Hpoll ∅).
    by destruct (self_poll ∅ self w) as [[[r|e|] self'] w'].
  - pose proof (disposal_keeps_handle self w) as Hd.
    by rewrite Hd.
  - specialize (Hpoll kwargs). unfold poll_link.
    injection Hpoll as _ -> _ -> _. done.
  - specialize (Hpoll kwargs). unfold _default_user_headers.
    by injection Hpoll as _ _ _ _ ->.
Qed.

(** ** What the gate asks [time.sleep] for *)

(** X6.  The gate sleeps at most once, and what it passes to [time.sleep]
    is always positive (never the negative value that makes [time.sleep]
    raise); when the clock has not run backwards since the last completed
    call it is at most [wait_time / 1000] seconds. *)
Theorem gate_sleep_bounds self w :
  sleeps (_wait_till_next_poll self w) = sleeps w
  ∨ ∃ secs,
      sleeps (_wait_till_next_poll self w) = (sleeps w ++ [secs])%list ∧
      (0 < secs)%Q ∧
      ((time_at_last_poll self <= now w)%Q →
       (secs <= inject_Z (wait_time self) / 1000)%Q).
Proof.
  unfold _wait_till_next_poll.
  destruct (Qlt_le_dec _ _) as [Hlt|Hle]; [right|by left].
  eexists. split; [reflexivity|]. split; [millis|]. intros Hmono. millis.
Qed.

(** ** Exhaustion *)

(** X7.  Exhaustion is permanent and costs nothing: once a static handle
    has [is_done] true, every later [poll], with whatever keyword
    arguments, raises the exhaustion error, and handle and world (script,
    clock, log of calls and sleeps) stay exactly as they were. *)
Theorem exhaustion_is_permanent n kwargs self w :
  cls self = StaticQueryJob →
  is_done self = true →
  polls n kwargs self w =
    (replicate n (Raise HumioQueryJobExhaustedException), self, w).
Proof.
  intros Hcls Hdone. induction n as [|n IH]; [done|].
  cbn [polls]. unfold self_poll at 1. rewrite Hcls.
  unfold StaticQueryJob_poll. rewrite Hdone. unfold raise. by rewrite IH.
Qed.

Lemma exhaustion_is_permanent_witness :
  let w := Scenario.at_time 1700000000 [Scenario.ok Scenario.streaming] in
  let self := with_flags Scenario.static_job true false in
  polls 3 ∅ self w =
    (replicate 3 (Raise HumioQueryJobExhaustedException), self, w).
Proof.
  intros w self.
  exact (exhaustion_is_permanent 3 ∅ self w eq_refl eq_refl).
Defined.

(** X8.  A live handle is never exhausted: its [poll] is the engine's
    whatever [is_done] is, so it always issues at least one transport
    call and never raises the exhaustion error. *)
Theorem live_poll_never_exhausted kwargs self w :
  cls self = LiveQueryJob →
  self_poll kwargs self w = poll kwargs self w ∧
  length (calls w) < length (calls (self_poll kwargs self w).2) ∧
  (self_poll kwargs self w).1.1 ≠ Raise HumioQueryJobExhaustedException.
Proof.
  intros Hcls. unfold self_poll. rewrite Hcls. split_and!; try done.
  - destruct (poll_calls kwargs self w) as (new & Hc & Hne & _).
    rewrite Hc, length_app. destruct new; [done|]. simpl. lia.
  - destruct (poll kwargs self w) as [[o self'] w'] eqn:Hp. cbn.
    intros ->.
    destruct (poll_raise_is_raised_for _ _ _ _ _ _ Hp) as [err Herr].
    by apply (raised_for_not_exhausted err).
Qed.

Lemma live_poll_never_exhausted_witness :
  let w := Scenario.at_time 1700000000 [Scenario.ok Scenario.streaming] in
  let self := with_flags Scenario.live_job true false in
  self_poll ∅ self w = poll ∅ self w ∧
  length (calls w) < length (calls (self_poll ∅ self w).2) ∧
  (self_poll ∅ self w).1.1 ≠ Raise HumioQueryJobExhaustedException.
Proof.
  intros w self. exact (live_poll_never_exhausted ∅ self w eq_refl).
Defined.

(** ** The generator, for every handle *)

(** X9.  A generator made by [poll_until_done] polls at most once.  Its
    first pull is one [self.poll()] without keyword arguments; if that
    returned or raised, every later pull raises [StopIteration] and leaves
    handle and world untouched, so however often it is pulled it yields at
    most one [PollResult]. *)
Theorem generator_polls_once self w :
  (∀ o g self' w',
      generator_next GenCreated self w = (o, g, self', w') →
      self_poll ∅ self w = (o, self', w') ∧
      (o ≠ Starved → g ≠ GenCreated))
  ∧ (∀ g, g ≠ GenCreated →
          generator_next g self w = (Raise StopIteration, GenFinished, self, w))
  ∧ (∀ n, length (yielded (pull n GenCreated self w).1.1.1) ≤ 1).
Proof.
  split_and!.
  - intros o g self' w'. cbn [generator_next].
    destruct (self_poll ∅ self w) as [[[r|e|] self1] w1];
      intros [= <- <- <- <-]; done.
  - intros g Hg. by apply generator_next_after_yield.
  - intros [|n]; [cbn; lia|]. cbn [pull generator_next].
    destruct (self_poll ∅ self w) as [[[r|e|] self1] w1]; [|cbn; lia..].
    destruct n as [|n]; cbn; lia.
Qed.

(** ** Pacing inside one poll *)

Definition patient (xs : list exchange) : Prop :=
  Forall (λ x, (0 <= oversleep x)%Q) xs.

(** The call a fetch right after a successful one issues. *)
Lemma refetch_is_paced link h kw self w x rest r :
  patient rest →
  let self1 := committed self r (issue_time self w + latency x)%Q in
  let w1 := answered link h kw self w x rest in
  (issue_time self w + latency x + inject_Z (pollAfter (metaData r)) / 1000
     <= issue_time self1 w1)%Q.
Proof.
  intros Hpat self1 w1.
  apply (issue_time_lower_bound self1 w1).
  - apply Qle_refl.
  - intros y rest' Hs. unfold w1 in Hs. rewrite answered_script in Hs.
    subst rest. by apply Forall_cons in Hpat as [? _].
Qed.

Lemma loop_run_spaced link h kw pr self w o self' w' :
  loop_run link h kw pr self w o self' w' →
  patient (script w) →
  w' = w ∨
  ∃ xs cs,
    xs `prefix_of` script w ∧
    calls w' = (calls w ++ Call "get" link h kw (issue_time self w) :: cs)%list ∧
    spaced xs (Call "get" link h kw (issue_time self w) :: cs).
Proof.
  induction 1 as [pr self w Hnd | pr self w self' w' Hnd Hf
                 | pr self w e self' w' Hnd Hf
                 | pr self w pr1 self1 w1 o self' w' Hnd Hf Hrun IH];
    intros Hpat.
  - by left.
  - right. exists [], []. split; [apply prefix_nil|].
    pose proof (fetch_one_call link h kw self w) as Hc. rewrite Hf in Hc.
    split; [exact Hc|constructor].
  - right. exists [], []. split; [apply prefix_nil|].
    pose proof (fetch_one_call link h kw self w) as Hc. rewrite Hf in Hc.
    split; [exact Hc|constructor].
  - right.
    destruct (fetch_cases link h kw self w)
      as [(_ & w2 & Hw & _) | [(x & rest & r & Hs & Hr & Hw)
                             | (x & rest & e & _ & _ & Hw)]];
      rewrite Hw in Hf; try discriminate.
    injection Hf as <- <- <-.
    assert (patient rest) as Hrest.
    { unfold patient in Hpat. rewrite Hs in Hpat.
      by apply Forall_cons in Hpat as [_ ?]. }
    destruct (IH Hrest) as [-> | (xs & cs & Hpre & Hc & Hsp)].
    + exists [], []. split; [apply prefix_nil|]. split; [done|constructor].
    + exists (x :: xs), (Call "get" link h kw
                           (issue_time (committed self r
                                          (issue_time self w + latency x)%Q)
                              (answered link h kw self w x rest)) :: cs).
      split_and!.
      * rewrite Hs. by apply prefix_cons.
      * rewrite Hc, answered_calls, <- app_assoc. done.
      * eapply spaced_next; [exact Hr| |exact Hsp].
        cbn [c_time]. by apply refetch_is_paced.
Qed.

(** X10.  Inside one [poll] the server's [pollAfter] is honoured between
    fetches: every transport call after the first (the further fetches of
    an aggregate job, the extra fetch of a streaming one) is issued no
    earlier than the completion of the call before it plus the [pollAfter]
    milliseconds of that call's response, provided no sleep is cut
    short. *)
Theorem poll_calls_are_spaced kwargs self w :
  patient (script w) →
  ∃ xs cs,
    xs `prefix_of` script w ∧
    calls (poll kwargs self w).2 = (calls w ++ cs)%list ∧
    spaced xs cs.
Proof.
  intros Hpat.
  set (link := poll_link self). set (h := poll_headers self kwargs).
  set (kw := delete "headers" kwargs).
  destruct (script w) as [|x rest] eqn:Hs.
  { rewrite (poll_first_starved kwargs self w Hs).
    exists [], [Call "get" link h kw (issue_time self w)].
    split; [done|]. split; [apply fetch_one_call|constructor]. }
  destruct (result x) as [r|e] eqn:Hr.
  2:{ rewrite (poll_first_raises _ _ _ _ _ _ Hs Hr).
      exists [], [Call "get" link h kw (issue_time self w)].
      split; [apply prefix_nil|]. split; [done|constructor]. }
  assert (patient rest) as Hrest by (by apply Forall_cons in Hpat as [_ ?]).
  rewrite (poll_first_answered _ _ _ _ _ _ Hs Hr). cbv zeta. fold link h kw.
  set (self1 := committed self r (issue_time self w + latency x)%Q).
  set (w1 := answered link h kw self w x rest).
  assert (∀ (o : outcome PollResult) (self' : job) w',
            (w' = w1 ∨
             ∃ xs cs,
               xs `prefix_of` script w1 ∧
               calls w' = (calls w1 ++ Call "get" link h kw
                                         (issue_time self1 w1) :: cs)%list ∧
               spaced xs (Call "get" link h kw (issue_time self1 w1) :: cs)) →
            ∃ xs cs, xs `prefix_of` x :: rest ∧
                     calls (o, self', w').2 = (calls w ++ cs)%list ∧ spaced xs cs)
    as Hglue.
  { intros o self' w' [-> | (xs & cs & Hpre & Hc & Hsp)].
    - exists [], [Call "get" link h kw (issue_time self w)].
      split; [apply prefix_nil|]. split; [done|constructor].
    - exists (x :: xs),
             (Call "get" link h kw (issue_time self w)
              :: Call "get" link h kw (issue_time self1 w1) :: cs).
      split_and!.
      + by apply prefix_cons.
      + cbn [snd]. rewrite Hc. unfold w1.
        rewrite answered_calls, <- app_assoc. done.
      + eapply spaced_next; [exact Hr| |exact Hsp].
        cbn [c_time]. by apply refetch_is_paced. }
  destruct (isAggregate (metaData r)).
  - destruct (aggregate_loop _ _ _ _ _ self1 w1) as [[o self'] w'] eqn:Hl.
    apply Hglue.
    apply aggregate_loop_fuel in Hl; [|unfold w1; rewrite answered_script; lia].
    by apply loop_run_spaced in Hl.
  - destruct ((workDone (metaData r) =? 0)%Z && negb (done r)).
    + pose proof (fetch_one_call link h kw self1 w1) as Hc.
      destruct (_fetch_next_segment link h kw self1 w1) as [[o self'] w'].
      apply Hglue. right. exists [], []. split; [apply prefix_nil|].
      split; [exact Hc|constructor].
    + apply (Hglue (Ret (segment r)) self1 w1). by left.
Qed.

(** A streaming poll that takes the extra fetch: the second call goes out
    at least 0.2 s after the first completed. *)
Lemma poll_calls_are_spaced_witness :
  let w := Scenario.at_time 1700000000
             [Scenario.ok Scenario.empty_streaming;
              Scenario.ok Scenario.streaming] in
  ∃ xs cs,
    xs `prefix_of` script w ∧
    calls (poll ∅ Scenario.live_job w).2 = (calls w ++ cs)%list ∧
    spaced xs cs.
Proof.
  intros w. apply (poll_calls_are_spaced ∅ Scenario.live_job w).
  repeat constructor; discriminate.
Defined.

(** ** The first poll of a fresh handle *)

(** The first call of a [poll] is the one its first fetch issues. *)
Lemma poll_first_call kwargs self w :
  ∃ cs, calls (poll kwargs self w).2 =
        (calls w ++ Call "get" (poll_link self) (poll_headers self kwargs)
                      (delete "headers" kwargs) (issue_time self w) :: cs)%list.
Proof.
  destruct (script w) as [|x rest] eqn:Hs.
  { rewrite (poll_first_starved kwargs self w Hs), fetch_one_call. by exists []. }
  destruct (result x) as [r|e] eqn:Hr.
  2:{ rewrite (poll_first_raises _ _ _ _ _ _ Hs Hr). by exists []. }
  rewrite (poll_first_answered _ _ _ _ _ _ Hs Hr). cbv zeta.
  destruct (isAggregate (metaData r)).
  - match goal with |- context [aggregate_loop ?f ?l ?hh ?k ?p ?s0 ?w0] =>
      destruct (aggregate_loop f l hh k p s0 w0) as [[o self'] w'] eqn:Hl end.
    apply aggregate_loop_fuel in Hl; [|rewrite answered_script; lia].
    apply loop_run_consumed in Hl
      as [(_ & _ & _ & ->) | (_ & pre & rs & _ & _ & [(new & Hc & _) _] & _)].
    + by exists [].
    + exists new. cbn [snd]. rewrite Hc, answered_calls, <- app_assoc. done.
  - destruct ((workDone (metaData r) =? 0)%Z && negb (done r)).
    + rewrite fetch_one_call, answered_calls, <- app_assoc. by eexists.
    + by exists [].
Qed.

(** X11.  The first [poll] of a handle fresh from its constructor goes
    straight to the transport: it is never refused as exhausted, it does
    not sleep first, and its first call is a GET issued at the time
    [poll] was entered (the clock reads a time at or after the epoch). *)
Theorem first_poll_is_immediate c q b r t kwargs w :
  (0 <= now w)%Q →
  let self := BaseQueryJob__init__ c q b r t in
  _wait_till_next_poll self w = w ∧
  StaticQueryJob_poll kwargs (StaticQueryJob__init__ q b r t) w =
    poll ∅ (StaticQueryJob__init__ q b r t) w ∧
  self_poll kwargs (LiveQueryJob__init__ q b r t) w =
    poll kwargs (LiveQueryJob__init__ q b r t) w ∧
  ∃ cs, calls (poll kwargs self w).2 =
        (calls w ++ Call "get" ("dataspaces/" +:+ r +:+ "/queryjobs/" +:+ q)
                      (poll_headers self kwargs) (delete "headers" kwargs)
                      (now w) :: cs)%list.
Proof.
  intros Hnow self.
  assert (_wait_till_next_poll self w = w) as Hgate.
  { apply wait_passes. cbn [self BaseQueryJob__init__ wait_time time_at_last_poll].
    change (inject_Z 0) with 0%Q. lra. }
  split_and!; try done.
  destruct (poll_first_call kwargs self w) as (cs & Hc). exists cs.
  rewrite Hc. unfold issue_time. by rewrite Hgate.
Qed.

Lemma first_poll_is_immediate_witness :
  let w := Scenario.at_time 1700000000 [Scenario.ok Scenario.streaming] in
  ∃ cs, calls (poll ∅ (LiveQueryJob__init__ "q" "https://h/" "repo" "tok") w).2 =
        (calls w ++ Call "get" "dataspaces/repo/queryjobs/q"
                      (poll_headers (LiveQueryJob__init__ "q" "https://h/" "repo" "tok") ∅)
                      (delete "headers" ∅) (now w) :: cs)%list.
Proof.
  intros w.
  destruct (first_poll_is_immediate LiveQueryJob "q" "https://h/" "repo" "tok" ∅ w)
    as (_ & _ & _ & Hfirst); [done|exact Hfirst].
Defined.

(** ** No cap on the aggregate loop *)

Lemma aggregate_loop_starves link h kw :
  ∀ xs rs fuel pr0 self w,
    script w = xs →
    answers xs rs →
    Forall not_done_yet rs →
    _aggregate_query_is_not_done (metadata pr0) = true →
    length xs < fuel →
    ∃ self' w',
      aggregate_loop fuel link h kw pr0 self w = (Starved, self', w') ∧
      script w' = [] ∧
      length (calls w') = length (calls w) + S (length xs).
Proof.
  induction xs as [|x xs IH]; intros rs fuel pr0 self w Hs Hans Hall Hnd Hfuel;
    (destruct fuel as [|fuel]; [simpl in Hfuel; lia|]).
  - cbn [aggregate_loop]. rewrite Hnd. unfold bind.
    destruct (fetch_starved link h kw self w Hs) as (w' & Hw & Hs' & Hc).
    rewrite Hw. exists self, w'. split_and!; try done.
    rewrite Hc, length_app. simpl. lia.
  - destruct rs as [|r rs]; [discriminate|].
    unfold answers in Hans. rewrite !fmap_cons in Hans.
    injection Hans as Hr Hans. apply Forall_cons in Hall as [Hnd1 Hall].
    cbn [aggregate_loop]. rewrite Hnd. unfold bind.
    rewrite (fetch_ok _ _ _ _ _ _ _ _ Hs Hr).
    edestruct (IH rs fuel (segment r)) as (self' & w' & Hrun & Hs' & Hc);
      [apply answered_script|exact Hans|exact Hall|exact Hnd1
      |simpl in Hfuel; lia|].
    exists self', w'. rewrite Hrun. split_and!; try done.
    rewrite Hc, answered_calls, length_app. simpl. lia.
Qed.

(** X12.  The aggregate loop has no cap of its own and looks at nothing
    but [isAggregate], [workDone] and [totalWork]: as long as the server
    answers with unfinished aggregate segments, whatever their [done] and
    [cancelled] flags say, [poll] neither returns nor raises.  It has made
    one transport call per answer and one more that is still waiting. *)
Theorem aggregate_poll_has_no_cap kwargs self w rs :
  script w ≠ [] →
  answers (script w) rs →
  Forall not_done_yet rs →
  ∃ self' w',
    poll kwargs self w = (Starved, self', w') ∧
    script w' = [] ∧
    length (calls w') = length (calls w) + S (length (script w)).
Proof.
  intros Hne Hans Hall.
  destruct (script w) as [|x rest] eqn:Hs; [done|].
  destruct rs as [|r rs]; [discriminate|].
  unfold answers in Hans. rewrite !fmap_cons in Hans.
  injection Hans as Hr Hans. apply Forall_cons in Hall as [Hnd Hall].
  rewrite (poll_first_answered _ _ _ _ _ _ Hs Hr). cbv zeta.
  assert (isAggregate (metaData r) = true) as ->.
  { unfold not_done_yet, _aggregate_query_is_not_done in Hnd.
    by apply andb_true_iff in Hnd as [? _]. }
  edestruct (aggregate_loop_starves (poll_link self) (poll_headers self kwargs)
               (delete "headers" kwargs) rest rs (S (length rest)) (segment r))
    as (self' & w' & Hrun & Hs' & Hc);
    [apply answered_script|exact Hans|exact Hall|exact Hnd|lia|].
  exists self', w'. rewrite Hrun. split_and!; try done.
  rewrite Hc, answered_calls, length_app. simpl. lia.
Qed.

(** A cancelled aggregate job stuck at 3 of 10: three answers, four
    calls, and [poll] still waiting. *)
Lemma aggregate_poll_has_no_cap_witness :
  let stuck := Response [] (MetaData true 3 10 500) true true in
  let w := Scenario.at_time 1700000000
             [Scenario.ok stuck; Scenario.ok stuck; Scenario.ok stuck] in
  ∃ self' w',
    poll ∅ Scenario.live_job w = (Starved, self', w') ∧
    script w' = [] ∧
    length (calls w') = length (calls w) + S (length (script w)).
Proof.
  intros stuck w.
  apply (aggregate_poll_has_no_cap ∅ Scenario.live_job w [stuck; stuck; stuck]).
  - discriminate.
  - reflexivity.
  - repeat constructor.
Defined.
